(** * Map2D: connectivity grid, wavefront cost field and path walk

    A shallow embedding of [MapLib.py] (class [Map2D]): the doubled
    connection matrix, the neighbour algebra, the wavefront propagation of
    [fillCostMatrix] and the recursive walk of [findPath].

    numpy arrays are lists of rows of integers with numpy's indexing
    written out (negative indices wrap once, anything else raises
    [IndexError]); the attributes of the object are a record that every
    method takes and gives back; exceptions are a sum type. *)

From Stdlib Require Import ZArith Lia.
From stdpp Require Import base decidable option list numbers.

Local Open Scope Z_scope.

(** ** Exceptions and results *)

Inductive exn : Set :=
| IndexError              (* index out of bounds for an axis *)
| TypeError               (* subscripting None *)
| KeyError                (* missing key of the direction table *)
| ValueError              (* negative dimensions are not allowed *)
| RecursionDepthExceeded. (* maximum recursion depth exceeded *)

Inductive result (A : Type) : Type :=
| Ok (a : A)
| Raise (e : exn).
Arguments Ok {A} a.
Arguments Raise {A} e.

#[export] Instance result_ret : MRet result := fun _ a => Ok a.
#[export] Instance result_bind : MBind result := fun _ _ f m =>
  match m with
  | Ok a => f a
  | Raise e => Raise e
  end.

Definition is_ok {A} (r : result A) : bool :=
  match r with Ok _ => true | Raise _ => false end.

(** ** numpy arrays of rank 2 *)

Module np.

Abbreviation ndarray := (list (list Z)).

(** [np.ones((n, m)) * v] *)
Definition full (n m : Z) (v : Z) : ndarray :=
  replicate (Z.to_nat n) (replicate (Z.to_nat m) v).

(** Every row has [ny] entries and there are [nx] rows. *)
Definition has_shape (nx ny : Z) (a : ndarray) : Prop :=
  0 <= nx /\ 0 <= ny /\
  Z.of_nat (length a) = nx /\ Forall (fun row => Z.of_nat (length row) = ny) a.

(** An index along an axis of length [n]: [-n <= i < n], negatives count
    from the end. *)
Definition index (n : nat) (i : Z) : result nat :=
  if decide (0 <= i < Z.of_nat n) then Ok (Z.to_nat i)
  else if decide (- Z.of_nat n <= i < 0) then Ok (Z.to_nat (i + Z.of_nat n))
  else Raise IndexError.

(** [a[x, y]] and [a[x][y]] *)
Definition getitem (a : ndarray) (x y : Z) : result Z :=
  i ← index (length a) x;
  match a !! i with
  | None => Raise IndexError
  | Some row =>
      j ← index (length row) y;
      match row !! j with
      | None => Raise IndexError
      | Some v => Ok v
      end
  end.

(** [a[x, y] = v] and [a[x][y] = v] *)
Definition setitem (a : ndarray) (x y : Z) (v : Z) : result ndarray :=
  i ← index (length a) x;
  match a !! i with
  | None => Raise IndexError
  | Some row =>
      j ← index (length row) y;
      Ok (<[i := <[j := v]> row]> a)
  end.

(** Subscripting an attribute that may still be [None]. *)
Definition getitem_opt (a : option ndarray) (x y : Z) : result Z :=
  match a with
  | None => Raise TypeError
  | Some a => getitem a x y
  end.

End np.

(** ** The object *)

Record Map2D : Type := mkMap2D {
  sizeX : Z;
  sizeY : Z;
  sizeCell : Z;
  connectionMatrix : option np.ndarray;
  costMatrix : option np.ndarray;
  currentPath : option (list Z);
  sizeXExtended : Z;
  sizeYExtended : Z
}.

Definition set_connectionMatrix (self : Map2D) (c : np.ndarray) : Map2D :=
  mkMap2D (sizeX self) (sizeY self) (sizeCell self) (Some c)
          (costMatrix self) (currentPath self)
          (sizeXExtended self) (sizeYExtended self).

Definition set_costMatrix (self : Map2D) (c : option np.ndarray) : Map2D :=
  mkMap2D (sizeX self) (sizeY self) (sizeCell self) (connectionMatrix self)
          c (currentPath self)
          (sizeXExtended self) (sizeYExtended self).

Definition set_currentPath (self : Map2D) (p : list Z) : Map2D :=
  mkMap2D (sizeX self) (sizeY self) (sizeCell self) (connectionMatrix self)
          (costMatrix self) (Some p)
          (sizeXExtended self) (sizeYExtended self).

Definition set_sizeExtended (self : Map2D) (ex ey : Z) : Map2D :=
  mkMap2D (sizeX self) (sizeY self) (sizeCell self) (connectionMatrix self)
          (costMatrix self) (currentPath self) ex ey.

(** [self.neighbor]: row 0 holds the offsets of the first index, row 1
    those of the second. *)
Definition neighbor : list (list Z) :=
  [ [1; 1; 0; -1; -1; -1; 0; 1];
    [0; 1; 1; 1; 0; -1; -1; -1] ].

Definition neighbor0 (i : nat) : Z := default 0 (row ← neighbor !! 0%nat; row !! i).
Definition neighbor1 (i : nat) : Z := default 0 (row ← neighbor !! 1%nat; row !! i).

(** What the loader leaves behind for a well-formed file: a connection
    matrix of shape (2 sizeX + 1, 2 sizeY + 1). *)
Definition loaded (self : Map2D) : Prop :=
  0 <= sizeX self /\ 0 <= sizeY self /\
  exists c, connectionMatrix self = Some c /\
            np.has_shape (2 * sizeX self + 1) (2 * sizeY self + 1) c.

(** *** Loading

    [__init__] followed by the row loop of [_loadMap], on the integers
    already parsed from the file: the header and one list per line.  The
    line of index [indx] fills [connectionMatrix[:, shape[1] - 1 - indx]];
    an empty line is skipped, any other line of the wrong width makes the
    load fail. *)

Definition set_column (c : np.ndarray) (y : nat) (line : list Z) : np.ndarray :=
  zip_with (fun row v => <[y := v]> row) c line.

Fixpoint _loadMap_rows (c : np.ndarray) (ny : nat) (indx : nat)
         (lines : list (list Z)) : option np.ndarray :=
  match lines with
  | [] => Some c
  | line :: rest =>
      if decide (length line = length c /\ (indx < ny)%nat) then
        _loadMap_rows (set_column c (ny - 1 - indx) line) ny (S indx) rest
      else if decide (length line = 0%nat) then
        _loadMap_rows c ny (S indx) rest
      else None
  end.

Definition _loadMap (header : list Z) (lines : list (list Z)) : option Map2D :=
  match header with
  | [sx; sy; cell] =>
      if decide (0 <= 2 * sx + 1 /\ 0 <= 2 * sy + 1) then
        c ← _loadMap_rows (np.full (2 * sx + 1) (2 * sy + 1) 0)
                          (Z.to_nat (2 * sy + 1)) 0 lines;
        Some (mkMap2D sx sy cell (Some c) None None 0 0)
      else None
  | _ => None
  end.

(** The same load from the tokens of the file, as [split] leaves them.
    [int] stands for Python's [int] on one token: the integer, or [None]
    where it raises [ValueError].  The tokens of a line are converted
    when the loop comes to that line, and the [except] clause of
    [_loadMap] turns every exception into the answer [False]: so do a
    token that [int] rejects and the negative dimension that [np.ones]
    refuses. *)
Section Tokens.

Context {token : Type} (int : token -> option Z).

Fixpoint _loadMap_token_rows (c : np.ndarray) (ny : nat) (indx : nat)
         (lines : list (list token)) : option np.ndarray :=
  match lines with
  | [] => Some c
  | tmp :: rest =>
      match mapM int tmp with
      | None => None
      | Some parsed_line =>
          if decide (length parsed_line = length c /\ (indx < ny)%nat) then
            _loadMap_token_rows (set_column c (ny - 1 - indx) parsed_line)
                                ny (S indx) rest
          else if decide (length parsed_line = 0%nat) then
            _loadMap_token_rows c ny (S indx) rest
          else None
      end
  end.

Definition _loadMap_tokens (header : list token) (lines : list (list token))
  : option Map2D :=
  parsed_header ← mapM int header;
  match parsed_header with
  | [sx; sy; cell] =>
      if decide (0 <= 2 * sx + 1 /\ 0 <= 2 * sy + 1) then
        c ← _loadMap_token_rows (np.full (2 * sx + 1) (2 * sy + 1) 0)
                                (Z.to_nat (2 * sy + 1)) 0 lines;
        Some (mkMap2D sx sy cell (Some c) None None 0 0)
      else None
  | _ => None
  end.

End Tokens.

(** *** Connections *)

Definition _cell2connCoord (cellX cellY : Z) (numNeigh : Z) : result (Z * Z) :=
  let connX := 2 * cellX + 1 in
  let connY := 2 * cellY + 1 in
  match numNeigh with
  | 0 => Ok (connX, connY + 1)
  | 1 => Ok (connX + 1, connY + 1)
  | 2 => Ok (connX + 1, connY)
  | 3 => Ok (connX + 1, connY - 1)
  | 4 => Ok (connX, connY - 1)
  | 5 => Ok (connX - 1, connY - 1)
  | 6 => Ok (connX - 1, connY)
  | 7 => Ok (connX - 1, connY + 1)
  | _ => Raise KeyError
  end.

Definition write_connection (self : Map2D) (cellX cellY numNeigh : Z) (v : Z)
  : result Map2D :=
  '(connX, connY) ← _cell2connCoord cellX cellY numNeigh;
  match connectionMatrix self with
  | None => Raise TypeError
  | Some c =>
      c' ← np.setitem c connX connY v;
      Ok (set_connectionMatrix self c')
  end.

Definition setConnection (self : Map2D) (cellX cellY numNeigh : Z) : result Map2D :=
  write_connection self cellX cellY numNeigh 1.

Definition deleteConnection (self : Map2D) (cellX cellY numNeigh : Z) : result Map2D :=
  write_connection self cellX cellY numNeigh 0.

Definition isConnected (self : Map2D) (cellX cellY numNeigh : Z) : result Z :=
  '(connX, connY) ← _cell2connCoord cellX cellY numNeigh;
  np.getitem_opt (connectionMatrix self) connX connY.

(** The map of the class documentation, [mapa0.txt]. *)
Definition mapa0 : option Map2D :=
  _loadMap [3; 3; 400]
    [ [0; 0; 0; 0; 0; 0; 0];
      [0; 1; 1; 1; 1; 1; 0];
      [0; 1; 1; 1; 1; 1; 0];
      [0; 1; 1; 1; 1; 1; 0];
      [0; 1; 1; 1; 1; 1; 0];
      [0; 1; 1; 1; 1; 1; 0];
      [0; 0; 0; 0; 0; 0; 0] ].

Definition unloaded : Map2D := mkMap2D 0 0 0 None None None 0 0.

(** The object that loading [mapa0.txt] builds. *)
Definition map0 : Map2D := Eval vm_compute in default unloaded mapa0.

(** ** Wavefront propagation *)

Fixpoint foldM {A B : Type} (f : A -> B -> result A) (a : A) (l : list B)
  : result A :=
  match l with
  | [] => Ok a
  | b :: l' => a' ← f a b; foldM f a' l'
  end.

(** [range(0, n)] *)
Definition range (n : Z) : list Z := seqZ 0 n.

Definition in_grid (self : Map2D) (x y : Z) : Prop :=
  (0 <= x < 2 * sizeX self + 1) /\ (0 <= y < 2 * sizeY self + 1).

#[export] Instance in_grid_dec self x y : Decision (in_grid self x y).
Proof. unfold in_grid. apply _. Defined.

(** One turn of the loop of [propagateWavefront]: the neighbour [i] of
    [origin].  The state is the grid, updated in place, and
    [numberUpdates]. *)
Definition propagate_neighbor (self : Map2D) (origin : Z * Z)
           (st : np.ndarray * Z) (i : nat) : result (np.ndarray * Z) :=
  let '(grid, numberUpdates) := st in
  let x := origin.1 + neighbor0 i in
  let y := origin.2 + neighbor1 i in
  if decide (in_grid self x y) then
    g ← np.getitem grid x y;
    if decide (g = -2) then
      o ← np.getitem grid origin.1 origin.2;
      grid' ← np.setitem grid x y (o + 1);
      Ok (grid', numberUpdates + 1)
    else
      o ← np.getitem grid origin.1 origin.2;
      if decide (g > o + 1 /\ g <> -1) then
        grid' ← np.setitem grid x y (o + 1);
        Ok (grid', numberUpdates + 1)
      else Ok (grid, numberUpdates)
  else Ok (grid, numberUpdates).

(** The shape of every grid built for [self]. *)
Abbreviation grid_shape self :=
  (np.has_shape (2 * sizeX self + 1) (2 * sizeY self + 1)).

(** The position that both wavefront loops compute for direction [i]. *)
Definition neighbor_pos (origin : Z * Z) (i : nat) : Z * Z :=
  (origin.1 + neighbor0 i, origin.2 + neighbor1 i).
Arguments neighbor_pos : simpl never.

(** What a neighbour holding [g] holds after the turn of the loop that
    visits it from an origin holding [o]. *)
Definition relaxed (o g : Z) : Z :=
  if decide (g = -2) then o + 1
  else if decide (g > o + 1 /\ g <> -1) then o + 1
  else g.

(** [propagateWavefront(grid, origin)]: the grid after the call and the
    value returned, [numberUpdates]. *)
Definition propagateWavefront (self : Map2D) (grid : np.ndarray) (origin : Z * Z)
  : result (np.ndarray * Z) :=
  foldM (propagate_neighbor self origin) (grid, 0) (seq 0 8).

Definition increment_neighbor (self : Map2D) (grid : np.ndarray) (cell : Z * Z)
           (new_wavefront : list (Z * Z)) (i : nat) : result (list (Z * Z)) :=
  let x := cell.1 + neighbor0 i in
  let y := cell.2 + neighbor1 i in
  if decide (in_grid self x y) then
    g ← np.getitem grid x y;
    if decide (g <> -1) then
      g2 ← np.getitem grid x y;
      c ← np.getitem grid cell.1 cell.2;
      if decide (g2 = c + 1) then Ok (new_wavefront ++ [(x, y)])
      else Ok new_wavefront
    else Ok new_wavefront
  else Ok new_wavefront.

Definition incrementWavefront (self : Map2D) (cells_updated : list (Z * Z))
           (grid : np.ndarray) : result (list (Z * Z)) :=
  foldM (fun w cell => foldM (increment_neighbor self grid cell) w (seq 0 8))
        [] cells_updated.

(** The initialisation of [grid] in [fillCostMatrix]: -2 everywhere, -1
    where the connection matrix holds 0. *)
Definition init_cell (self : Map2D) (i : Z) (grid : np.ndarray) (j : Z)
  : result np.ndarray :=
  c ← np.getitem_opt (connectionMatrix self) i j;
  if decide (c = 0) then np.setitem grid i j (-1) else Ok grid.

Definition init_grid (self : Map2D) (ex ey : Z) : result np.ndarray :=
  if decide (ex < 0 \/ ey < 0) then Raise ValueError
  else
    foldM (fun grid i => foldM (init_cell self i) grid (range ey))
          (np.full ex ey (-2)) (range ex).

(** One round of the [while] loop: every cell of the wavefront is
    propagated, then the wavefront is rebuilt. *)
Definition wavefront_round (self : Map2D) (grid : np.ndarray)
           (wavefront : list (Z * Z)) : result (np.ndarray * Z * list (Z * Z)) :=
  '(grid', numberUpdates) ←
    foldM (fun st cell =>
             '(g, n) ← propagateWavefront self st.1 cell;
             Ok (g, st.2 + n))
          (grid, 0) wavefront;
  wavefront' ← incrementWavefront self wavefront grid';
  Ok (grid', numberUpdates, wavefront').

(** The [while not finished] loop; [None] when [rounds] rounds were not
    enough to see a round without update. *)
Fixpoint wavefront_loop (rounds : nat) (self : Map2D) (grid : np.ndarray)
         (wavefront : list (Z * Z)) : option (result (np.ndarray * list (Z * Z))) :=
  match rounds with
  | O => None
  | S rounds' =>
      match wavefront_round self grid wavefront with
      | Raise e => Some (Raise e)
      | Ok (grid', numberUpdates, wavefront') =>
          if decide (numberUpdates = 0) then Some (Ok (grid', wavefront'))
          else wavefront_loop rounds' self grid' wavefront'
      end
  end.

(** The body of [fillCostMatrix(goalCell)] down to its last statement: the
    object and the local variables [grid] and [wavefront] there. *)
Definition fillCostMatrix_locals (rounds : nat) (self : Map2D) (goalCell : Z * Z)
  : option (result (Map2D * np.ndarray * list (Z * Z))) :=
  let self' := set_sizeExtended self (2 * sizeX self + 1) (2 * sizeY self + 1) in
  let goalX := 2 * goalCell.1 + 1 in
  let goalY := 2 * goalCell.2 + 1 in
  let goal := (goalX, goalY) in
  match (grid ← init_grid self' (sizeXExtended self') (sizeYExtended self');
         np.setitem grid goal.1 goal.2 0) with
  | Raise e => Some (Raise e)
  | Ok grid =>
      match wavefront_loop rounds self' grid [goal] with
      | None => None
      | Some (Raise e) => Some (Raise e)
      | Some (Ok (grid', wavefront)) => Some (Ok (self', grid', wavefront))
      end
  end.

(** [fillCostMatrix(goalCell)] as its caller sees it: the object after
    the call and the wavefront printed.  The method returns [None] and
    the local [grid] is dropped. *)
Definition fillCostMatrix (rounds : nat) (self : Map2D) (goalCell : Z * Z)
  : option (result (Map2D * list (Z * Z))) :=
  match fillCostMatrix_locals rounds self goalCell with
  | None => None
  | Some (Raise e) => Some (Raise e)
  | Some (Ok (self', _, wavefront)) => Some (Ok (self', wavefront))
  end.

(** ** Path walk *)

(** The state of the two neighbour loops of [findPath]: [best_step] and
    [low_path]. *)
Definition consider (costMatrix : option np.ndarray) (st : option (Z * Z) * Z)
           (next_mov : Z * Z) : result (option (Z * Z) * Z) :=
  c ← np.getitem_opt costMatrix next_mov.1 next_mov.2;
  if decide (st.2 > c) then Ok (Some next_mov, c) else Ok st.

Definition consider_4 (costMatrix : option np.ndarray) (x_ini y_ini : Z)
           (st : option (Z * Z) * Z) (i : Z * Z) : result (option (Z * Z) * Z) :=
  consider costMatrix st (i.1 + x_ini, i.2 + y_ini).

Definition consider_8 (costMatrix : option np.ndarray) (x_ini y_ini : Z)
           (st : option (Z * Z) * Z) (i : Z * Z) : result (option (Z * Z) * Z) :=
  a ← np.getitem_opt costMatrix (x_ini + i.1) y_ini;
  if decide (a <> -1) then
    b ← np.getitem_opt costMatrix x_ini (y_ini + i.2);
    if decide (b <> -1) then consider costMatrix st (i.1 + x_ini, i.2 + y_ini)
    else Ok st
  else Ok st.

(** The two lists that the loops of [findPath] run over. *)
Definition orthogonal_moves : list (Z * Z) := [(0, 1); (0, -1); (1, 0); (-1, 0)].
Definition diagonal_moves : list (Z * Z) := [(1, -1); (1, 1); (-1, 1); (-1, -1)].

Definition best_step (costMatrix : option np.ndarray) (x_ini y_ini : Z)
  : result (option (Z * Z) * Z) :=
  st ← foldM (consider_4 costMatrix x_ini y_ini) (None, 10000000) orthogonal_moves;
  foldM (consider_8 costMatrix x_ini y_ini) st diagonal_moves.

Definition append_path (self : Map2D) (x y : Z) : Map2D :=
  match currentPath self with
  | None => set_currentPath self [x; y]
  | Some p => set_currentPath self (p ++ [x; y])
  end.

(** [findPath(x_ini, y_ini, x_end, y_end)]: the value returned or the
    exception raised, and the object as the call leaves it.  [depth] is
    the number of frames the interpreter still allows. *)
Fixpoint findPath (depth : nat) (self : Map2D) (x_ini y_ini x_end y_end : Z)
  : result bool * Map2D :=
  match depth with
  | O => (Raise RecursionDepthExceeded, self)
  | S depth' =>
      let x_ini := 2 * x_ini + 1 in
      let y_ini := 2 * y_ini + 1 in
      let x_end := 2 * x_end + 1 in
      let y_end := 2 * y_end + 1 in
      let self := append_path self x_ini y_ini in
      match np.getitem_opt (costMatrix self) x_ini y_ini with
      | Raise e => (Raise e, self)
      | Ok c =>
          if decide (c = -1) then (Ok false, self)
          else if decide (x_ini = x_end /\ y_ini = y_end) then (Ok true, self)
          else
            match best_step (costMatrix self) x_ini y_ini with
            | Raise e => (Raise e, self)
            | Ok (None, _) => (Raise TypeError, self)
            | Ok (Some step, _) => findPath depth' self step.1 step.2 x_end y_end
            end
      end
  end.

Definition planPath (depth : nat) (self : Map2D) (point_ini point_end : Z * Z)
  : result bool * Map2D :=
  findPath depth self point_ini.1 point_ini.2 point_end.1 point_end.2.

(** The entries of [currentPath], flat and read as pairs. *)
Definition path_entries (self : Map2D) : list Z := default [] (currentPath self).

Fixpoint pairs (l : list Z) : list (Z * Z) :=
  match l with
  | x :: y :: l' => (x, y) :: pairs l'
  | _ => []
  end.

Definition path_of (self : Map2D) : list (Z * Z) := pairs (path_entries self).

(** The number of calls of [findPath] that one call to it makes, itself
    included: each call appends two numbers to [currentPath]. *)
Definition findPath_calls (depth : nat) (self : Map2D) (x_ini y_ini x_end y_end : Z)
  : nat :=
  ((length (path_entries (findPath depth self x_ini y_ini x_end y_end).2)
    - length (path_entries self)) / 2)%nat.

(** What the walk may step to from (x, y): the four orthogonal
    neighbours, and the diagonal ones whose two adjoining orthogonal
    positions both hold something else than -1. *)
Definition eligible (cm : np.ndarray) (x y : Z) (i : Z * Z) : Prop :=
  exists a b, np.getitem cm (x + i.1) y = Ok a /\ a <> -1 /\
              np.getitem cm x (y + i.2) = Ok b /\ b <> -1.

Definition candidate (cm : np.ndarray) (x y : Z) (p : Z * Z) : Prop :=
  (exists i, i ∈ orthogonal_moves /\ p = (i.1 + x, i.2 + y)) \/
  (exists i, i ∈ diagonal_moves /\ eligible cm x y i /\ p = (i.1 + x, i.2 + y)).

(** What the two loops of [findPath] keep: [low_path] is the lowest value
    among the positions considered so far, below the initial 10000000,
    and [best_step] is where it was first seen. *)
Definition step_inv (cm : np.ndarray) (seen : Z * Z -> Prop)
           (st : option (Z * Z) * Z) : Prop :=
  st.2 <= 10000000 /\
  (forall q v, seen q -> np.getitem cm q.1 q.2 = Ok v -> st.2 <= v) /\
  (st.1 = None -> st.2 = 10000000) /\
  (forall s, st.1 = Some s ->
             seen s /\ np.getitem cm s.1 s.2 = Ok st.2 /\ st.2 < 10000000).

(** The positions that numpy accepts as indices of the grid of [self]:
    the grid itself and its mirror below zero. *)
Definition accepted_index (self : Map2D) (x y : Z) : Prop :=
  (- (2 * sizeX self + 1) <= x < 2 * sizeX self + 1) /\
  (- (2 * sizeY self + 1) <= y < 2 * sizeY self + 1).

(** No neighbour that the walk may step to holds less than (x, y). *)
Definition local_minimum (cm : np.ndarray) (x y : Z) : Prop :=
  forall c p v, np.getitem cm x y = Ok c -> candidate cm x y p ->
                np.getitem cm p.1 p.2 = Ok v -> c <= v.

(** ** The documented map and two small ones *)

(** The local [grid] that [fillCostMatrix] holds when it ends, [[]] if it
    does not get there. *)
Definition grid_of (r : option (result (Map2D * np.ndarray * list (Z * Z))))
  : np.ndarray :=
  match r with
  | Some (Ok (_, grid, _)) => grid
  | _ => []
  end.

(** The grid computed for the documented map and the goal cell (1, 1). *)
Definition field0 : np.ndarray :=
  Eval vm_compute in grid_of (fillCostMatrix_locals 3 map0 (1, 1)).

(** Three cells in a row: a wall between the first two, the third cell
    closed. *)
Definition map_wall : Map2D :=
  Eval vm_compute in
    default unloaded
      (_loadMap [3; 1; 400]
         [ [0; 0; 0; 0; 0; 0; 0];
           [0; 1; 0; 1; 1; 0; 0];
           [0; 0; 0; 0; 0; 0; 0] ]).

(** The grid computed for it and the goal cell (0, 0). *)
Definition field_wall : np.ndarray :=
  Eval vm_compute in grid_of (fillCostMatrix_locals 3 map_wall (0, 0)).

(** Two by two cells, every position open, and two cost fields on its
    grid that were not computed for the end cell of the walk: one that
    falls towards the corner (0, 0), one with a pit at (1, 1). *)
Definition map_open : Map2D :=
  Eval vm_compute in
    default unloaded
      (_loadMap [2; 2; 400]
         [ [1; 1; 1; 1; 1];
           [1; 1; 1; 1; 1];
           [1; 1; 1; 1; 1];
           [1; 1; 1; 1; 1];
           [1; 1; 1; 1; 1] ]).

Definition field_slope : np.ndarray :=
  [ [0; 5; 5; 5; 5];
    [5; 5; 5; 5; 5];
    [5; 5; 5; 5; 5];
    [5; 5; 5; 5; 5];
    [5; 5; 5; 5; 5] ].

Definition field_pit : np.ndarray :=
  [ [1; 2; 2; 2; 2];
    [2; 0; 2; 2; 2];
    [2; 2; 2; 2; 2];
    [2; 2; 2; 2; 2];
    [2; 2; 2; 2; 2] ].



(** ** Further methods *)

(** The cell that [numNeigh] points to from (cellX, cellY), in the
    numbering drawn in the documentation of [isConnected]:
<<
      7 0 1
      6 . 2
      5 4 3
>>
    with the second coordinate growing upwards, as in
    [_cell2connCoord]. *)
Definition neighbour_cell (cellX cellY numNeigh : Z) : Z * Z :=
  match numNeigh with
  | 0 => (cellX, cellY + 1)
  | 1 => (cellX + 1, cellY + 1)
  | 2 => (cellX + 1, cellY)
  | 3 => (cellX + 1, cellY - 1)
  | 4 => (cellX, cellY - 1)
  | 5 => (cellX - 1, cellY - 1)
  | 6 => (cellX - 1, cellY)
  | 7 => (cellX - 1, cellY + 1)
  | _ => (cellX, cellY)
  end.

(** The direction that points back. *)
Definition opposite (numNeigh : Z) : Z := (numNeigh + 4) mod 8.

(** [getNumberObstacles()]: the two loops over the connection matrix. *)
Definition count_cell (self : Map2D) (i : Z) (n : Z) (j : Z) : result Z :=
  c ← np.getitem_opt (connectionMatrix self) i j;
  if decide (c = 1) then Ok (n + 1) else Ok n.

Definition getNumberObstacles (self : Map2D) : result Z :=
  foldM (fun n i => foldM (count_cell self i) n (range (2 * sizeY self + 1)))
        0 (range (2 * sizeX self + 1)).


(** The value at a position inside a grid, read without numpy's checks. *)
Definition cost (grid : np.ndarray) (p : Z * Z) : Z :=
  default 0 (row ← grid !! Z.to_nat p.1; row !! Z.to_nat p.2).

(** What [incrementWavefront] collects around one cell: the neighbours,
    in the order of the table, that lie in the grid, are not blocked and
    hold the value of the cell plus one. *)
Definition next_positions (self : Map2D) (grid : np.ndarray) (cell : Z * Z)
  : list (Z * Z) :=
  filter (fun p => in_grid self p.1 p.2 /\ cost grid p <> -1 /\
                   cost grid p = cost grid cell + 1)
         (map (neighbor_pos cell) (seq 0 8)).


(** How many entries of a matrix hold [k]. *)
Definition count_eq (k : Z) (a : np.ndarray) : Z :=
  Z.of_nat (length (filter (fun v => v = k) (concat a))).


(** ** The invariant of the wavefront loop *)

(** [q] is one of the 8 neighbours of [p] and lies in the grid. *)
Definition adjacent (self : Map2D) (p q : Z * Z) : Prop :=
  (exists i, (i < 8)%nat /\ q = neighbor_pos p i) /\ in_grid self q.1 q.2.

(** What holds of the grid of [fillCostMatrix] while the cells of the
    wavefront [W], which hold [r], are propagated: [closed] tells the
    positions that were initialised to -1. *)
Record wave_inv (self : Map2D) (goal : Z * Z) (closed : Z * Z -> Prop)
       (r : Z) (W : list (Z * Z)) (grid : np.ndarray) : Prop := {
  wi_shape : grid_shape self grid;
  wi_round : 0 <= r;
  wi_goal : in_grid self goal.1 goal.2 /\ cost grid goal = 0;
  wi_values : forall p, in_grid self p.1 p.2 ->
      cost grid p = -1 \/ cost grid p = -2 \/ 0 <= cost grid p <= r + 1;
  wi_closed : forall p, in_grid self p.1 p.2 -> (cost grid p = -1 <-> closed p);
  wi_zero : forall p, in_grid self p.1 p.2 -> cost grid p = 0 -> p = goal;
  wi_descent : forall p, in_grid self p.1 p.2 -> 1 <= cost grid p ->
      exists q, adjacent self p q /\ cost grid q = cost grid p - 1;
  wi_done : forall p q, in_grid self p.1 p.2 -> 0 <= cost grid p < r ->
      adjacent self p q -> cost grid q <> -2 /\ cost grid q <= cost grid p + 1;
  wi_front : forall w, w ∈ W -> in_grid self w.1 w.2 /\ cost grid w = r;
  wi_new : forall p, in_grid self p.1 p.2 -> cost grid p = r + 1 ->
      exists w, w ∈ W /\ adjacent self w p
}.

(** What holds in addition when a round starts: nothing holds more than
    [r], and the wavefront has every position that holds [r]. *)
Record round_start (self : Map2D) (goal : Z * Z) (closed : Z * Z -> Prop)
       (r : Z) (W : list (Z * Z)) (grid : np.ndarray) : Prop := {
  rs_inv : wave_inv self goal closed r W grid;
  rs_values : forall p, in_grid self p.1 p.2 -> cost grid p <= r;
  rs_full : forall p, in_grid self p.1 p.2 -> cost grid p = r -> p ∈ W
}.

(** The only change a round makes: an unvisited position takes the value
    [r + 1]. *)
Definition only_visits (self : Map2D) (r : Z) (grid grid' : np.ndarray) : Prop :=
  forall q, in_grid self q.1 q.2 ->
    cost grid' q = cost grid q \/ (cost grid q = -2 /\ cost grid' q = r + 1).


(** What the grid holds when the loop of [fillCostMatrix] has ended. *)
Record field_ok (self : Map2D) (goal : Z * Z) (closed : Z * Z -> Prop)
       (grid : np.ndarray) : Prop := {
  fo_shape : grid_shape self grid;
  fo_goal : in_grid self goal.1 goal.2 /\ cost grid goal = 0;
  fo_zero : forall p, in_grid self p.1 p.2 -> cost grid p = 0 -> p = goal;
  fo_closed : forall p, in_grid self p.1 p.2 -> (cost grid p = -1 <-> closed p);
  fo_values : forall p, in_grid self p.1 p.2 ->
      cost grid p = -1 \/ cost grid p = -2 \/ 0 <= cost grid p;
  fo_descent : forall p, in_grid self p.1 p.2 -> 1 <= cost grid p ->
      exists q, adjacent self p q /\ cost grid q = cost grid p - 1;
  fo_closure : forall p q, in_grid self p.1 p.2 -> 0 <= cost grid p ->
      adjacent self p q -> cost grid q <> -2 /\ cost grid q <= cost grid p + 1
}.

(** The positions that [fillCostMatrix] initialises to -1 and leaves so:
    those where the connection matrix holds 0, the goal apart. *)
Definition closed_of (self : Map2D) (goal : Z * Z) (p : Z * Z) : Prop :=
  np.getitem_opt (connectionMatrix self) p.1 p.2 = Ok 0 /\ p <> goal.

(** What [init_grid] gives a position. *)
Definition init_value (c : np.ndarray) (p : Z * Z) : Z :=
  if decide (cost c p = 0) then -1 else -2.


(** A descent from [p] to [goal] in a grid: every step goes to one of the
    8 neighbours, inside the grid, that holds exactly one less. *)
Fixpoint descent (self : Map2D) (grid : np.ndarray) (goal : Z * Z)
         (p : Z * Z) (path : list (Z * Z)) : Prop :=
  match path with
  | [] => p = goal
  | q :: rest =>
      adjacent self p q /\
      (exists v, np.getitem grid q.1 q.2 = Ok v /\
                 np.getitem grid p.1 p.2 = Ok (v + 1)) /\
      descent self grid goal q rest
  end.

(** A walk from [p] to [goal]: every step goes to one of the 8
    neighbours, inside the grid, and no position left behind is blocked
    (holds -1). *)
Fixpoint walk (self : Map2D) (grid : np.ndarray) (goal : Z * Z)
         (p : Z * Z) (path : list (Z * Z)) : Prop :=
  match path with
  | [] => p = goal
  | q :: rest =>
      adjacent self p q /\
      np.getitem grid p.1 p.2 <> Ok (-1) /\
      walk self grid goal q rest
  end.


(** Pairs written out flat, as [findPath] records them. *)
Definition flat (l : list (Z * Z)) : list Z :=
  concat (map (fun p => [p.1; p.2]) l).

(** How one call of [findPath] strings its entries: each entry after the
    first is 2 s + 1, in both coordinates, for a step [s] that the walk
    may take from the entry before. *)
Fixpoint redoubled (cm : np.ndarray) (entries : list (Z * Z)) : Prop :=
  match entries with
  | p :: rest =>
      match rest with
      | q :: _ =>
          (exists s, candidate cm p.1 p.2 s /\ q = (2 * s.1 + 1, 2 * s.2 + 1)) /\
          redoubled cm rest
      | [] => True
      end
  | [] => True
  end.

(** * Properties *)

(** The four parts of [step_inv]. *)
Ltac split_inv := split; [| split; [| split]].

(** ** numpy indexing *)

Section Indexing.

Context (nx ny : Z) (a : np.ndarray) (Ha : np.has_shape nx ny a).

Lemma index_inrange (n : nat) (i : Z) :
  0 <= i < Z.of_nat n -> np.index n i = Ok (Z.to_nat i).
Proof. intros H. unfold np.index. case_decide; [done | lia]. Qed.

Lemma index_raise (n : nat) (i : Z) :
  np.index n i = Raise IndexError <-> ~ (- Z.of_nat n <= i < Z.of_nat n).
Proof.
  unfold np.index. repeat case_decide; split; intros; try done; lia.
Qed.

Lemma index_ok (n : nat) (i : Z) (k : nat) :
  np.index n i = Ok k -> (k < n)%nat /\ - Z.of_nat n <= i < Z.of_nat n.
Proof.
  unfold np.index. repeat case_decide; intros [= <-]; lia.
Qed.

Lemma shape_row (i : nat) (row : list Z) :
  a !! i = Some row -> Z.of_nat (length row) = ny.
Proof.
  destruct Ha as (_ & _ & _ & Hrows). intros Hi.
  exact (proj1 (Forall_lookup _ _) Hrows i row Hi).
Qed.

Lemma getitem_inrange (x y : Z) :
  0 <= x < nx -> 0 <= y < ny ->
  np.getitem a x y =
  Ok (default 0 (row ← a !! Z.to_nat x; row !! Z.to_nat y)).
Proof.
  intros Hx Hy. pose proof Ha as (_ & _ & Hlen & _).
  unfold np.getitem. rewrite index_inrange by lia. cbn.
  destruct (lookup_lt_is_Some_2 a (Z.to_nat x)) as [row Hrow]; [lia |].
  rewrite Hrow. pose proof (shape_row _ _ Hrow) as Hr. cbn.
  rewrite index_inrange by lia. cbn.
  destruct (lookup_lt_is_Some_2 row (Z.to_nat y)) as [v Hv]; [lia |].
  rewrite Hv. reflexivity.
Qed.

Lemma getitem_raise (x y : Z) :
  np.getitem a x y = Raise IndexError <->
  ~ (- nx <= x < nx /\ - ny <= y < ny).
Proof.
  pose proof Ha as (_ & _ & Hlen & _). unfold np.getitem.
  destruct (np.index (length a) x) as [i | e] eqn:Hi; cbn.
  - apply index_ok in Hi as [Hi Hx].
    destruct (lookup_lt_is_Some_2 a i Hi) as [row Hrow]. rewrite Hrow.
    pose proof (shape_row _ _ Hrow) as Hr.
    destruct (np.index (length row) y) as [j | e] eqn:Hj; cbn.
    + apply index_ok in Hj as [Hj Hy].
      destruct (lookup_lt_is_Some_2 row j Hj) as [v Hv]. rewrite Hv.
      split; [done | lia].
    + assert (e = IndexError) as ->.
      { revert Hj. unfold np.index. repeat case_decide; congruence. }
      apply index_raise in Hj. split; [lia | done].
  - assert (e = IndexError) as ->.
    { revert Hi. unfold np.index. repeat case_decide; congruence. }
    apply index_raise in Hi. split; [lia | done].
Qed.

Lemma getitem_exn (x y : Z) (e : exn) :
  np.getitem a x y = Raise e -> e = IndexError.
Proof.
  unfold np.getitem, np.index.
  repeat (case_decide || case_match || cbn); congruence.
Qed.

Lemma setitem_inrange (x y v : Z) :
  0 <= x < nx -> 0 <= y < ny ->
  exists a', np.setitem a x y v = Ok a'.
Proof.
  intros Hx Hy. pose proof Ha as (_ & _ & Hlen & _).
  unfold np.setitem. rewrite index_inrange by lia. cbn.
  destruct (lookup_lt_is_Some_2 a (Z.to_nat x)) as [row Hrow]; [lia |].
  rewrite Hrow. pose proof (shape_row _ _ Hrow) as Hr. cbn.
  rewrite index_inrange by lia. cbn. eauto.
Qed.

Lemma setitem_raise (x y v : Z) :
  np.setitem a x y v = Raise IndexError <->
  ~ (- nx <= x < nx /\ - ny <= y < ny).
Proof.
  pose proof Ha as (_ & _ & Hlen & _). unfold np.setitem.
  destruct (np.index (length a) x) as [i | e] eqn:Hi; cbn.
  - apply index_ok in Hi as [Hi Hx].
    destruct (lookup_lt_is_Some_2 a i Hi) as [row Hrow]. rewrite Hrow.
    pose proof (shape_row _ _ Hrow) as Hr.
    destruct (np.index (length row) y) as [j | e] eqn:Hj; cbn.
    + apply index_ok in Hj as [Hj Hy]. split; [done | lia].
    + assert (e = IndexError) as ->.
      { revert Hj. unfold np.index. repeat case_decide; congruence. }
      apply index_raise in Hj. split; [lia | done].
  - assert (e = IndexError) as ->.
    { revert Hi. unfold np.index. repeat case_decide; congruence. }
    apply index_raise in Hi. split; [lia | done].
Qed.

Lemma setitem_shape (x y v : Z) (a' : np.ndarray) :
  np.setitem a x y v = Ok a' -> np.has_shape nx ny a'.
Proof.
  pose proof Ha as (Hnx & Hny & Hlen & Hrows). unfold np.setitem.
  destruct (np.index (length a) x) as [i | e] eqn:Hi; cbn; [| done].
  destruct (a !! i) as [row |] eqn:Hrow; [| done].
  destruct (np.index (length row) y) as [j | e] eqn:Hj; cbn; [| done].
  intros [= <-]. repeat split; try done.
  - by rewrite length_insert.
  - apply Forall_insert; [done |]. rewrite length_insert.
    by apply shape_row with i.
Qed.

Lemma getitem_setitem (x y v : Z) (a' : np.ndarray) (x' y' : Z) :
  0 <= x < nx -> 0 <= y < ny -> 0 <= x' < nx -> 0 <= y' < ny ->
  np.setitem a x y v = Ok a' ->
  np.getitem a' x' y' =
  if decide (x' = x /\ y' = y) then Ok v else np.getitem a x' y'.
Proof.
  intros Hx Hy Hx' Hy' Hset.
  pose proof (setitem_shape _ _ _ _ Hset) as Ha'.
  pose proof Ha as (_ & _ & Hlen & _).
  pose proof Ha' as (_ & _ & Hlen' & _).
  revert Hset. unfold np.setitem. rewrite index_inrange by lia. cbn.
  destruct (lookup_lt_is_Some_2 a (Z.to_nat x)) as [row Hrow]; [lia |].
  rewrite Hrow. pose proof (shape_row _ _ Hrow) as Hr. cbn.
  rewrite index_inrange by lia. cbn. intros [= <-].
  unfold np.getitem. rewrite length_insert, !index_inrange by lia. cbn.
  destruct (decide (Z.to_nat x' = Z.to_nat x)) as [Ex | Ex].
  - rewrite Ex, list_lookup_insert_eq by lia. rewrite Hrow.
    rewrite length_insert, !index_inrange by lia. cbn.
    destruct (decide (Z.to_nat y' = Z.to_nat y)) as [Ey | Ey].
    + rewrite Ey, list_lookup_insert_eq by lia.
      case_decide; [done | lia].
    + rewrite list_lookup_insert_ne by lia.
      case_decide; [lia | done].
  - rewrite list_lookup_insert_ne by lia.
    case_decide; [lia | done].
Qed.

End Indexing.

(** ** Connections *)

Lemma direction_cases (d : Z) :
  0 <= d < 8 -> d = 0 \/ d = 1 \/ d = 2 \/ d = 3 \/ d = 4 \/ d = 5 \/ d = 6 \/ d = 7.
Proof. lia. Qed.

Lemma _cell2connCoord_inrange (sx sy x y d : Z) :
  0 <= x < sx -> 0 <= y < sy -> 0 <= d < 8 ->
  exists cx cy, _cell2connCoord x y d = Ok (cx, cy) /\
                0 <= cx < 2 * sx + 1 /\ 0 <= cy < 2 * sy + 1.
Proof.
  intros Hx Hy Hd.
  destruct (direction_cases d Hd) as [-> | [-> | [-> | [-> | [-> | [-> | [-> | ->]]]]]]];
    cbn; eexists _, _; (split; [reflexivity | lia]).
Qed.


Lemma write_connection_inrange (self : Map2D) (x y d v : Z) (cx cy : Z) :
  loaded self ->
  _cell2connCoord x y d = Ok (cx, cy) ->
  0 <= cx < 2 * sizeX self + 1 -> 0 <= cy < 2 * sizeY self + 1 ->
  exists self', write_connection self x y d v = Ok self' /\
                loaded self' /\ sizeX self' = sizeX self /\ sizeY self' = sizeY self /\
                isConnected self' x y d = Ok v.
Proof.
  intros (Hsx & Hsy & c & Hc & Hshape) Hconn Hcx Hcy.
  destruct (setitem_inrange _ _ _ Hshape cx cy v Hcx Hcy) as [c' Hc'].
  exists (set_connectionMatrix self c').
  unfold write_connection, isConnected. rewrite Hconn, Hc. cbn. rewrite Hc'. cbn.
  pose proof (setitem_shape _ _ _ Hshape _ _ _ _ Hc') as Hshape'.
  repeat split; try done.
  - exists c'. by split.
  - rewrite (getitem_setitem _ _ _ Hshape cx cy v c' cx cy) by done.
    case_decide; [done | lia].
Qed.

Lemma mapa0_loads : mapa0 = Some map0.
Proof. vm_compute. reflexivity. Qed.

Lemma map0_loaded : loaded map0.
Proof.
  unfold loaded. cbn. repeat split; try lia.
  eexists. split; [reflexivity |].
  unfold np.has_shape. repeat split; try lia. repeat constructor.
Defined.

(** C8, as the specification states it: after [setConnection(c, d)] and
    then [deleteConnection(c, d)], [isConnected(c, d)] is what it was
    before.  On the documented map the connection of cell (0, 0) to its
    neighbour 0 is open (1) before the two calls and closed (0) after
    them. *)
Lemma set_delete_does_not_restore_open :
  exists self1 self2,
    setConnection map0 0 0 0 = Ok self1 /\
    deleteConnection self1 0 0 0 = Ok self2 /\
    isConnected map0 0 0 0 = Ok 1 /\
    isConnected self2 0 0 0 = Ok 0 /\
    isConnected self2 0 0 0 <> isConnected map0 0 0 0.
Proof.
  eexists _, _. split; [vm_compute; reflexivity |].
  split; [vm_compute; reflexivity |].
  repeat split; try (vm_compute; reflexivity).
  vm_compute. discriminate.
Qed.

(** C8 (amended): for a loaded map, an in-range cell and a direction in
    0..7, [setConnection(c, d)] followed by [deleteConnection(c, d)]
    both succeed and leave [isConnected(c, d)] at 0, closed; that is the
    value before the two calls exactly when the connection was closed
    before them. *)
Theorem setConnection_deleteConnection_closes (self : Map2D) (x y d : Z) :
  loaded self -> 0 <= x < sizeX self -> 0 <= y < sizeY self -> 0 <= d < 8 ->
  exists self1 self2,
    setConnection self x y d = Ok self1 /\
    deleteConnection self1 x y d = Ok self2 /\
    isConnected self2 x y d = Ok 0 /\
    (isConnected self2 x y d = isConnected self x y d <->
     isConnected self x y d = Ok 0).
Proof.
  intros Hl Hx Hy Hd.
  destruct (_cell2connCoord_inrange _ _ x y d Hx Hy Hd) as (cx & cy & Hc & Hcx & Hcy).
  destruct (write_connection_inrange self x y d 1 cx cy Hl Hc Hcx Hcy)
    as (self1 & H1 & Hl1 & Hsx1 & Hsy1 & _).
  destruct (write_connection_inrange self1 x y d 0 cx cy Hl1 Hc) as
    (self2 & H2 & _ & _ & _ & Hread); [lia | lia |].
  exists self1, self2. unfold setConnection, deleteConnection.
  repeat split; try done.
  - intros <-. done.
  - intros ->. done.
Qed.

Lemma setConnection_deleteConnection_closes_witness :
  loaded map0 /\ 0 <= 1 < sizeX map0 /\ 0 <= 2 < sizeY map0 /\ 0 <= 3 < 8 /\
  exists self1 self2,
    setConnection map0 1 2 3 = Ok self1 /\
    deleteConnection self1 1 2 3 = Ok self2 /\
    isConnected self2 1 2 3 = Ok 0 /\
    (isConnected self2 1 2 3 = isConnected map0 1 2 3 <->
     isConnected map0 1 2 3 = Ok 0).
Proof.
  split; [exact map0_loaded |].
  split; [cbn; lia |]. split; [cbn; lia |]. split; [lia |].
  apply (setConnection_deleteConnection_closes map0 1 2 3);
    [exact map0_loaded | cbn; lia | cbn; lia | lia].
Defined.

(** ** propagateWavefront *)

Section Propagate.

Context (self : Map2D).

Lemma neighbor_pos_distinct (origin : Z * Z) (i j : nat) :
  (i < 8)%nat -> (j < 8)%nat -> i <> j ->
  neighbor_pos origin i <> neighbor_pos origin j.
Proof.
  intros Hi Hj Hij. unfold neighbor_pos. intros [= H0 H1].
  do 8 (destruct i as [| i]; [do 8 (destruct j as [| j]; [cbn in *; lia |]); lia |]).
  lia.
Qed.

Lemma neighbor_pos_origin (origin : Z * Z) (i : nat) :
  (i < 8)%nat -> neighbor_pos origin i <> origin.
Proof.
  intros Hi. unfold neighbor_pos. destruct origin as [ox oy]. intros [= H0 H1].
  do 8 (destruct i as [| i]; [cbn in *; lia |]). lia.
Qed.

(** One turn of the loop, from an origin inside the grid. *)
Lemma propagate_neighbor_spec (grid : np.ndarray) (n : Z) (ox oy o : Z) (i : nat) :
  grid_shape self grid -> in_grid self ox oy -> np.getitem grid ox oy = Ok o ->
  exists grid' n',
    propagate_neighbor self (ox, oy) (grid, n) i = Ok (grid', n') /\
    grid_shape self grid' /\
    (forall g, in_grid self (neighbor_pos (ox, oy) i).1 (neighbor_pos (ox, oy) i).2 ->
       np.getitem grid (neighbor_pos (ox, oy) i).1 (neighbor_pos (ox, oy) i).2 = Ok g ->
       np.getitem grid' (neighbor_pos (ox, oy) i).1 (neighbor_pos (ox, oy) i).2
       = Ok (relaxed o g)) /\
    (forall x y, in_grid self x y -> (x, y) <> neighbor_pos (ox, oy) i ->
       np.getitem grid' x y = np.getitem grid x y).
Proof.
  intros Hs Ho Hov. unfold propagate_neighbor, neighbor_pos. cbn [fst snd].
  set (x := ox + neighbor0 i). set (y := oy + neighbor1 i).
  case_decide as Hin.
  - destruct Hin as [Hx Hy].
    rewrite (getitem_inrange _ _ _ Hs x y Hx Hy). cbn.
    set (g := default 0 _).
    assert (Hg : np.getitem grid x y = Ok g) by apply (getitem_inrange _ _ _ Hs x y Hx Hy).
    destruct (setitem_inrange _ _ _ Hs x y (o + 1) Hx Hy) as [grid1 Hset].
    pose proof (setitem_shape _ _ _ Hs _ _ _ _ Hset) as Hs1.
    assert (Hupd : exists grid' n',
      (grid1 ← np.setitem grid x y (o + 1); Ok (grid1, n + 1)) = Ok (grid', n') /\
      grid_shape self grid' /\
      np.getitem grid' x y = Ok (o + 1) /\
      (forall x' y', in_grid self x' y' -> (x', y') <> (x, y) ->
         np.getitem grid' x' y' = np.getitem grid x' y')).
    { exists grid1, (n + 1). rewrite Hset. cbn. repeat split; try done; try apply Hs1.
      - rewrite (getitem_setitem _ _ _ Hs x y (o + 1) grid1 x y) by done.
        case_decide; [done | lia].
      - intros x' y' [Hx' Hy'] Hne.
        rewrite (getitem_setitem _ _ _ Hs x y (o + 1) grid1 x' y') by done.
        case_decide as E; [destruct E; congruence | done]. }
    unfold relaxed. case_decide as Hg2.
    + rewrite Hov. cbn. destruct Hupd as (grid' & n' & -> & Hs' & Hget & Hother).
      exists grid', n'. repeat split; try done; try apply Hs'.
      intros g' _ [= <-].
      rewrite Hget. by rewrite decide_True.
    + rewrite Hov. cbn. case_decide as Hgt.
      * destruct Hupd as (grid' & n' & -> & Hs' & Hget & Hother).
        exists grid', n'. repeat split; try done; try apply Hs'.
        intros g' _ [= <-].
        rewrite Hget. rewrite decide_False by done. by rewrite decide_True.
      * exists grid, n. repeat split; try done; try apply Hs.
        intros g' _ [= <-].
        rewrite Hg. rewrite decide_False by done. by rewrite decide_False.
  - exists grid, n. repeat split; try done; try apply Hs.
Qed.

(** The turns for a list of distinct directions, one after the other. *)
Lemma propagate_fold_spec (l : list nat) (ox oy o : Z) :
  NoDup l -> (forall i, i ∈ l -> (i < 8)%nat) ->
  forall (grid : np.ndarray) (n : Z),
  grid_shape self grid -> in_grid self ox oy -> np.getitem grid ox oy = Ok o ->
  exists grid' n',
    foldM (propagate_neighbor self (ox, oy)) (grid, n) l = Ok (grid', n') /\
    grid_shape self grid' /\
    (forall i g, i ∈ l ->
       in_grid self (neighbor_pos (ox, oy) i).1 (neighbor_pos (ox, oy) i).2 ->
       np.getitem grid (neighbor_pos (ox, oy) i).1 (neighbor_pos (ox, oy) i).2 = Ok g ->
       np.getitem grid' (neighbor_pos (ox, oy) i).1 (neighbor_pos (ox, oy) i).2
       = Ok (relaxed o g)) /\
    (forall x y, in_grid self x y -> (forall i, i ∈ l -> (x, y) <> neighbor_pos (ox, oy) i) ->
       np.getitem grid' x y = np.getitem grid x y).
Proof.
  induction l as [| i l IH]; intros Hnd Hall grid n Hs Ho Hov.
  - exists grid, n. cbn. repeat split; try done; try apply Hs.
    intros i g Hi. by apply not_elem_of_nil in Hi.
  - pose proof (NoDup_cons_1_1 _ _ Hnd) as Hil. apply NoDup_cons_1_2 in Hnd.
    assert (Hi : (i < 8)%nat) by (apply Hall; by left).
    assert (Hall' : forall k, k ∈ l -> (k < 8)%nat) by (intros k Hk; apply Hall; by right).
    destruct (propagate_neighbor_spec grid n ox oy o i Hs Ho Hov)
      as (grid1 & n1 & Hstep & Hs1 & Hhit1 & Hmiss1).
    assert (Hov1 : np.getitem grid1 ox oy = Ok o).
    { rewrite Hmiss1; [done | done |]. intros E. symmetry in E.
      by apply (neighbor_pos_origin (ox, oy) i Hi). }
    destruct (IH Hnd Hall' grid1 n1 Hs1 Ho Hov1) as (grid' & n' & Hfold & Hs' & Hhit & Hmiss).
    exists grid', n'. cbn [foldM]. rewrite Hstep. cbn. rewrite Hfold.
    repeat split; try done; try apply Hs'.
    + intros j g Hj Hin Hg. apply elem_of_cons in Hj as [-> | Hj].
      * rewrite Hmiss; [by apply Hhit1 | done |].
        intros k Hk E. rewrite <- surjective_pairing in E.
        apply neighbor_pos_distinct in E; try done.
        -- by apply Hall'.
        -- intros ->. done.
      * apply Hhit; try done. rewrite Hmiss1; [done | done |].
        rewrite <- surjective_pairing. apply neighbor_pos_distinct; try done.
        -- by apply Hall'.
        -- intros ->. done.
    + intros x y Hin Hne. rewrite Hmiss; [| done |].
      * apply Hmiss1; [done |]. apply Hne. by left.
      * intros k Hk. apply Hne. by right.
Qed.

End Propagate.

Lemma relaxed_blocked (o : Z) : relaxed o (-1) = -1.
Proof. unfold relaxed. repeat case_decide; lia. Qed.

Lemma relaxed_unvisited (o : Z) : relaxed o (-2) = o + 1.
Proof. unfold relaxed. repeat case_decide; lia. Qed.

Lemma seq_8_range (i : nat) : i ∈ seq 0 8 <-> (i < 8)%nat.
Proof. rewrite elem_of_seq. lia. Qed.

(** C10: from an origin inside the grid, [propagateWavefront] gives every
    in-bounds 8-neighbour the value [relaxed o g], which depends on the
    origin's value [o] and on the neighbour's own value [g] only.  In
    particular a diagonal neighbour that is unvisited (-2) receives the
    cost [o + 1] even when the two orthogonal positions adjoining it are
    blocked (-1), although the diagonal test of [findPath] ([consider_8])
    then refuses that very move from the origin. *)
Theorem propagateWavefront_crosses_closed_corner
        (self : Map2D) (grid : np.ndarray) (ox oy o : Z) :
  np.has_shape (2 * sizeX self + 1) (2 * sizeY self + 1) grid ->
  in_grid self ox oy ->
  np.getitem grid ox oy = Ok o ->
  exists grid' numberUpdates,
    propagateWavefront self grid (ox, oy) = Ok (grid', numberUpdates) /\
    (forall i g, (i < 8)%nat ->
       in_grid self (ox + neighbor0 i) (oy + neighbor1 i) ->
       np.getitem grid (ox + neighbor0 i) (oy + neighbor1 i) = Ok g ->
       np.getitem grid' (ox + neighbor0 i) (oy + neighbor1 i) = Ok (relaxed o g)) /\
    (forall dx dy, (dx = 1 \/ dx = -1) -> (dy = 1 \/ dy = -1) ->
       in_grid self (ox + dx) (oy + dy) ->
       np.getitem grid (ox + dx) oy = Ok (-1) ->
       np.getitem grid ox (oy + dy) = Ok (-1) ->
       np.getitem grid (ox + dx) (oy + dy) = Ok (-2) ->
       np.getitem grid' (ox + dx) (oy + dy) = Ok (o + 1) /\
       forall st, consider_8 (Some grid') ox oy st (dx, dy) = Ok st).
Proof.
  intros Hs Ho Hov.
  destruct (propagate_fold_spec self (seq 0 8) ox oy o (NoDup_seq 0 8)
              (fun i Hi => proj1 (seq_8_range i) Hi) grid 0 Hs Ho Hov)
    as (grid' & n' & Hfold & Hs' & Hhit & _).
  assert (Hrelax : forall i g, (i < 8)%nat ->
       in_grid self (ox + neighbor0 i) (oy + neighbor1 i) ->
       np.getitem grid (ox + neighbor0 i) (oy + neighbor1 i) = Ok g ->
       np.getitem grid' (ox + neighbor0 i) (oy + neighbor1 i) = Ok (relaxed o g)).
  { intros i g Hi Hin Hg. apply (Hhit i g); [by apply seq_8_range | done | done]. }
  exists grid', n'. split; [exact Hfold |]. split; [exact Hrelax |].
  intros dx dy Hdx Hdy Hin Ha Hb Hd.
  assert (Hdiag : np.getitem grid' (ox + dx) (oy + dy) = Ok (relaxed o (-2))).
  { destruct Hdx as [-> | ->], Hdy as [-> | ->].
    - apply (Hrelax 1%nat); [lia | done | done].
    - apply (Hrelax 7%nat); [lia | done | done].
    - apply (Hrelax 3%nat); [lia | done | done].
    - apply (Hrelax 5%nat); [lia | done | done]. }
  assert (Hside : np.getitem grid' (ox + dx) oy = Ok (relaxed o (-1))).
  { assert (Hin' : in_grid self (ox + dx) (oy + 0)).
    { destruct Hin, Ho. split; [done | lia]. }
    replace oy with (oy + 0) in Ha |- * by lia.
    destruct Hdx as [-> | ->].
    - apply (Hrelax 0%nat); [lia | done | done].
    - apply (Hrelax 4%nat); [lia | done | done]. }
  split.
  - by rewrite Hdiag, relaxed_unvisited.
  - intros st. unfold consider_8. cbn [fst snd np.getitem_opt].
    rewrite Hside, relaxed_blocked. cbn. by rewrite decide_False by lia.
Qed.

Lemma propagateWavefront_crosses_closed_corner_witness :
  let self := mkMap2D 2 2 400 None None None 5 5 in
  let grid := [ [-1; -1; -1; -1; -1];
                [-1;  0; -1; -2; -1];
                [-1; -1; -2; -2; -1];
                [-1; -2; -2; -2; -1];
                [-1; -1; -1; -1; -1] ] in
  np.has_shape (2 * sizeX self + 1) (2 * sizeY self + 1) grid /\
  in_grid self 1 1 /\
  np.getitem grid 1 1 = Ok 0 /\
  exists grid' numberUpdates,
    propagateWavefront self grid (1, 1) = Ok (grid', numberUpdates) /\
    (forall i g, (i < 8)%nat ->
       in_grid self (1 + neighbor0 i) (1 + neighbor1 i) ->
       np.getitem grid (1 + neighbor0 i) (1 + neighbor1 i) = Ok g ->
       np.getitem grid' (1 + neighbor0 i) (1 + neighbor1 i) = Ok (relaxed 0 g)) /\
    (forall dx dy, (dx = 1 \/ dx = -1) -> (dy = 1 \/ dy = -1) ->
       in_grid self (1 + dx) (1 + dy) ->
       np.getitem grid (1 + dx) 1 = Ok (-1) ->
       np.getitem grid 1 (1 + dy) = Ok (-1) ->
       np.getitem grid (1 + dx) (1 + dy) = Ok (-2) ->
       np.getitem grid' (1 + dx) (1 + dy) = Ok (0 + 1) /\
       forall st, consider_8 (Some grid') 1 1 st (dx, dy) = Ok st).
Proof.
  intros self grid.
  assert (Hs : np.has_shape (2 * sizeX self + 1) (2 * sizeY self + 1) grid).
  { unfold np.has_shape. cbn. repeat split; try lia. repeat constructor. }
  assert (Hin : in_grid self 1 1) by (unfold in_grid; cbn; lia).
  split; [exact Hs |]. split; [exact Hin |]. split; [reflexivity |].
  exact (propagateWavefront_crosses_closed_corner self grid 1 1 0 Hs Hin eq_refl).
Defined.

(** On that grid the corner (2, 2) is closed on both sides of the origin
    (1, 1), and the call gives it cost 1. *)
Example propagateWavefront_closed_corner_run :
  propagateWavefront (mkMap2D 2 2 400 None None None 5 5)
    [ [-1; -1; -1; -1; -1];
      [-1;  0; -1; -2; -1];
      [-1; -1; -2; -2; -1];
      [-1; -2; -2; -2; -1];
      [-1; -1; -1; -1; -1] ] (1, 1)
  = Ok ([ [-1; -1; -1; -1; -1];
          [-1;  0; -1; -2; -1];
          [-1; -1;  1; -2; -1];
          [-1; -2; -2; -2; -1];
          [-1; -1; -1; -1; -1] ], 1).
Proof. vm_compute. reflexivity. Qed.

(** ** The documented map *)

Lemma wavefront_loop_more (self : Map2D) (rounds : nat) :
  forall (grid : np.ndarray) (wavefront : list (Z * Z)) r (k : nat),
  wavefront_loop rounds self grid wavefront = Some r ->
  wavefront_loop (rounds + k) self grid wavefront = Some r.
Proof.
  induction rounds as [| rounds IH]; intros grid wavefront r k; [done |].
  cbn [wavefront_loop Nat.add].
  destruct (wavefront_round self grid wavefront) as [[[grid' n] w'] | e]; [| done].
  case_decide; [done |]. apply IH.
Qed.

Lemma fillCostMatrix_locals_more (self : Map2D) (goalCell : Z * Z) (rounds k : nat) r :
  fillCostMatrix_locals rounds self goalCell = Some r ->
  fillCostMatrix_locals (rounds + k) self goalCell = Some r.
Proof.
  unfold fillCostMatrix_locals.
  destruct (_ ≫= _) as [grid | e]; [| done].
  destruct (wavefront_loop rounds _ _ _) as [r' |] eqn:Hloop; [| done].
  by rewrite (wavefront_loop_more _ _ _ _ _ k Hloop).
Qed.

Lemma fillCostMatrix_map0 :
  fillCostMatrix_locals 3 map0 (1, 1)
  = Some (Ok (set_sizeExtended map0 7 7, field0, [])).
Proof. vm_compute. reflexivity. Qed.

(** C7: on the documented 3x3 map, three rounds of the loop of
    [fillCostMatrix] for the goal cell (1, 1) end it (and so does any
    larger number of rounds allowed), and the grid it has computed holds
    2 at the centre of cell (0, 0), 2 at the centre of cell (2, 2) and 0
    at the centre of cell (1, 1). *)
Theorem fillCostMatrix_map0_costs (k : nat) :
  mapa0 = Some map0 /\
  exists self' grid wavefront,
    fillCostMatrix_locals (3 + k) map0 (1, 1) = Some (Ok (self', grid, wavefront)) /\
    np.getitem grid (2 * 0 + 1) (2 * 0 + 1) = Ok 2 /\
    np.getitem grid (2 * 2 + 1) (2 * 2 + 1) = Ok 2 /\
    np.getitem grid (2 * 1 + 1) (2 * 1 + 1) = Ok 0.
Proof.
  split; [exact mapa0_loads |].
  exists (set_sizeExtended map0 7 7), field0, [].
  split; [exact (fillCostMatrix_locals_more _ _ 3 k _ fillCostMatrix_map0) |].
  repeat split; vm_compute; reflexivity.
Qed.

(** [fillCostMatrix] never stores anything in [costMatrix]. *)
Lemma fillCostMatrix_costMatrix (rounds : nat) (self self' : Map2D)
      (goalCell : Z * Z) (w : list (Z * Z)) :
  fillCostMatrix rounds self goalCell = Some (Ok (self', w)) ->
  costMatrix self' = costMatrix self.
Proof.
  unfold fillCostMatrix, fillCostMatrix_locals.
  destruct (_ ≫= _) as [grid | e]; [| done].
  destruct (wavefront_loop rounds _ _ _) as [[[grid' w'] | e] |]; try done.
  by intros [= <- _].
Qed.

(** C1 on the documented map: [fillCostMatrix((1, 1))] ends, prints an
    empty wavefront and leaves [costMatrix] at [None]; the grid it
    computed is lost, and [findPath] on the object then raises
    [TypeError] at its first read of [costMatrix]. *)
Theorem fillCostMatrix_map0_leaves_no_costMatrix :
  exists self',
    fillCostMatrix 3 map0 (1, 1) = Some (Ok (self', [])) /\
    costMatrix self' = None /\
    (findPath 1000 self' 0 0 1 1).1 = Raise TypeError.
Proof.
  eexists. split; [vm_compute; reflexivity |].
  split; vm_compute; reflexivity.
Qed.

(** ** The step chosen by findPath *)

Section BestStep.

Context (cm : np.ndarray) (x y : Z).

Lemma step_inv_ext (seen seen' : Z * Z -> Prop) st :
  (forall q, seen q <-> seen' q) -> step_inv cm seen st -> step_inv cm seen' st.
Proof.
  intros Heq (Hle & Hlow & Hnone & Hsome). split_inv; try done.
  - intros q v Hq. apply Hlow. by apply Heq.
  - intros s Hs. destruct (Hsome s Hs) as (H1 & H2 & H3).
    split; [by apply Heq | done].
Qed.

Lemma consider_inv (seen : Z * Z -> Prop) st st' (p : Z * Z) :
  step_inv cm seen st ->
  consider (Some cm) st p = Ok st' ->
  step_inv cm (fun q => seen q \/ q = p) st'.
Proof.
  intros (Hle & Hlow & Hnone & Hsome). unfold consider. cbn [np.getitem_opt].
  destruct (np.getitem cm p.1 p.2) as [c | e] eqn:Hc; cbn; [| done].
  case_decide as Hlt; intros [= <-]; split_inv; cbn [fst snd].
  - lia.
  - intros q v [Hq | ->] Hv.
    + specialize (Hlow q v Hq Hv). lia.
    + rewrite Hc in Hv. injection Hv as <-. lia.
  - done.
  - intros s [= <-]. split; [by right |]. split; [done | lia].
  - done.
  - intros q v [Hq | ->] Hv.
    + exact (Hlow q v Hq Hv).
    + rewrite Hc in Hv. injection Hv as <-. lia.
  - done.
  - intros s Hs. destruct (Hsome s Hs) as (H1 & H2 & H3).
    split; [by left | done].
Qed.

Lemma consider_4_fold_inv (l : list (Z * Z)) :
  forall (seen : Z * Z -> Prop) st st',
  step_inv cm seen st ->
  foldM (consider_4 (Some cm) x y) st l = Ok st' ->
  step_inv cm (fun q => seen q \/ exists i, i ∈ l /\ q = (i.1 + x, i.2 + y)) st'.
Proof.
  induction l as [| i l IH]; intros seen st st' Hinv; cbn [foldM].
  - intros [= <-]. apply (step_inv_ext seen); [| done].
    intros q. split; [by left |]. intros [Hq | (i & Hi & _)]; [done |].
    by apply not_elem_of_nil in Hi.
  - destruct (consider_4 (Some cm) x y st i) as [st1 | e] eqn:Hstep; cbn; [| done].
    intros Hfold. apply (consider_inv seen) in Hstep; [| done].
    apply (IH _ _ _ Hstep) in Hfold. revert Hfold. apply step_inv_ext.
    intros q. split.
    + intros [[Hq | ->] | (j & Hj & ->)].
      * by left.
      * right. exists i. split; [by left | done].
      * right. exists j. split; [by right | done].
    + intros [Hq | (j & Hj & ->)]; [by left; left |].
      apply elem_of_cons in Hj as [-> | Hj]; [by left; right |].
      right. by exists j.
Qed.

Lemma consider_8_fold_inv (l : list (Z * Z)) :
  forall (seen : Z * Z -> Prop) st st',
  step_inv cm seen st ->
  foldM (consider_8 (Some cm) x y) st l = Ok st' ->
  step_inv cm (fun q => seen q \/
                 exists i, i ∈ l /\ eligible cm x y i /\ q = (i.1 + x, i.2 + y)) st'.
Proof.
  induction l as [| i l IH]; intros seen st st' Hinv; cbn [foldM].
  - intros [= <-]. apply (step_inv_ext seen); [| done].
    intros q. split; [by left |]. intros [Hq | (i & Hi & _)]; [done |].
    by apply not_elem_of_nil in Hi.
  - destruct (consider_8 (Some cm) x y st i) as [st1 | e] eqn:Hstep; cbn; [| done].
    intros Hfold.
    assert (Hinv1 : step_inv cm
              (fun q => seen q \/ (eligible cm x y i /\ q = (i.1 + x, i.2 + y))) st1).
    { revert Hstep. unfold consider_8. cbn [np.getitem_opt].
      destruct (np.getitem cm (x + i.1) y) as [a | e] eqn:Ha; cbn; [| done].
      case_decide as Hane.
      - destruct (np.getitem cm x (y + i.2)) as [b | e] eqn:Hb; cbn; [| done].
        case_decide as Hbne.
        + intros Hstep. apply (consider_inv seen) in Hstep; [| done].
          revert Hstep. apply step_inv_ext. intros q. split.
          * intros [Hq | ->]; [by left |]. right. split; [| done].
            by exists a, b.
          * intros [Hq | [_ ->]]; [by left | by right].
        + intros [= <-]. revert Hinv. apply step_inv_ext. intros q.
          split; [by left |]. intros [Hq | [(a' & b' & _ & _ & Hb' & Hne) _]]; [done |].
          rewrite Hb in Hb'. injection Hb' as <-. lia.
      - intros [= <-]. revert Hinv. apply step_inv_ext. intros q.
        split; [by left |]. intros [Hq | [(a' & b' & Ha' & Hne & _) _]]; [done |].
        rewrite Ha in Ha'. injection Ha' as <-. lia. }
    apply (IH _ _ _ Hinv1) in Hfold. revert Hfold. apply step_inv_ext.
    intros q. split.
    + intros [[Hq | [He ->]] | (j & Hj & He & ->)].
      * by left.
      * right. exists i. split; [by left | done].
      * right. exists j. split; [by right | done].
    + intros [Hq | (j & Hj & He & ->)]; [by left; left |].
      apply elem_of_cons in Hj as [-> | Hj]; [by left; right |].
      right. by exists j.
Qed.

Lemma best_step_inv st :
  best_step (Some cm) x y = Ok st -> step_inv cm (candidate cm x y) st.
Proof.
  unfold best_step.
  destruct (foldM (consider_4 _ _ _) _ _) as [st1 | e] eqn:H4; [| done].
  intros H8. change (foldM (consider_8 (Some cm) x y) st1 diagonal_moves = Ok st) in H8.
  apply (consider_4_fold_inv _ (fun _ => False)) in H4.
  - apply (consider_8_fold_inv _ _ _ _ H4) in H8. revert H8.
    apply step_inv_ext. intros q. unfold candidate. tauto.
  - split_inv; cbn; done.
Qed.

Lemma candidate_near (p : Z * Z) :
  candidate cm x y p ->
  p <> (x, y) /\ -1 <= p.1 - x <= 1 /\ -1 <= p.2 - y <= 1.
Proof.
  unfold candidate, orthogonal_moves, diagonal_moves.
  intros [(i & Hi & ->) | (i & Hi & _ & ->)];
    repeat (apply elem_of_cons in Hi as [-> | Hi]);
    try (by apply not_elem_of_nil in Hi);
    cbn; (split; [intros [=]; lia | lia]).
Qed.

End BestStep.

(** ** findPath *)

Lemma append_path_costMatrix (self : Map2D) (x y : Z) :
  costMatrix (append_path self x y) = costMatrix self.
Proof. unfold append_path. by destruct (currentPath self). Qed.

Lemma append_path_entries (self : Map2D) (x y : Z) :
  path_entries (append_path self x y) = path_entries self ++ [x; y].
Proof. unfold append_path, path_entries. by destruct (currentPath self). Qed.

(** The body of [findPath] past its two tests. *)
Lemma findPath_step (depth : nat) (self : Map2D) (xi yi xe ye : Z)
      (cm : np.ndarray) (c : Z) :
  costMatrix self = Some cm ->
  np.getitem cm (2 * xi + 1) (2 * yi + 1) = Ok c -> c <> -1 ->
  (xi, yi) <> (xe, ye) ->
  findPath (S depth) self xi yi xe ye =
  match best_step (Some cm) (2 * xi + 1) (2 * yi + 1) with
  | Raise e => (Raise e, append_path self (2 * xi + 1) (2 * yi + 1))
  | Ok (None, _) => (Raise TypeError, append_path self (2 * xi + 1) (2 * yi + 1))
  | Ok (Some step, _) =>
      findPath depth (append_path self (2 * xi + 1) (2 * yi + 1))
               step.1 step.2 (2 * xe + 1) (2 * ye + 1)
  end.
Proof.
  intros Hcm Hc Hne Hcell. cbn [findPath].
  rewrite append_path_costMatrix, Hcm. cbn [np.getitem_opt]. rewrite Hc.
  rewrite decide_False by done.
  rewrite decide_False; [done |]. intros [Hx Hy]. apply Hcell. f_equal; lia.
Qed.


(** [findPath] answers [True] for a walk from a cell to itself only. *)
Lemma findPath_true_same_cell (depth : nat) :
  forall (self self' : Map2D) (xi yi xe ye : Z),
  findPath depth self xi yi xe ye = (Ok true, self') -> xi = xe /\ yi = ye.
Proof.
  induction depth as [| depth IH]; intros self self' xi yi xe ye; [done |].
  cbn [findPath].
  set (self1 := append_path self (2 * xi + 1) (2 * yi + 1)).
  destruct (costMatrix self1) as [cm |] eqn:Hcm; [| done]. cbn [np.getitem_opt].
  destruct (np.getitem cm _ _) as [c | e]; [| done].
  case_decide; [done |]. case_decide as Hend; [intros _; lia |].
  destruct (best_step _ _ _) as [[[step |] low] | e] eqn:Hbest; try done.
  intros Hrec. apply IH in Hrec as [H1 H2].
  apply best_step_inv in Hbest as (_ & _ & _ & Hsome).
  destruct (Hsome step eq_refl) as (Hcand & _ & _).
  apply candidate_near in Hcand as (Hne & Hx & Hy).
  exfalso. apply Hne. destruct step as [sx sy]. cbn in *. f_equal; lia.
Qed.

(** A cost field whose lowest candidate around (1, 1) is the corner
    (0, 0) keeps a walk that starts in cell (0, 0) there: the corner is
    taken for cell (0, 0) again, while the end moves away.  Only the
    recursion limit ends such a walk. *)
Lemma findPath_held_in_corner (cm : np.ndarray) (c low : Z) :
  np.getitem cm 1 1 = Ok c -> c <> -1 ->
  best_step (Some cm) 1 1 = Ok (Some (0, 0), low) ->
  forall (depth : nat) (self : Map2D) (xe ye : Z),
  costMatrix self = Some cm -> 1 <= xe -> 1 <= ye ->
  (findPath depth self 0 0 xe ye).1 = Raise RecursionDepthExceeded.
Proof.
  intros Hc Hne Hbest. induction depth as [| depth IH]; intros self xe ye Hcm Hxe Hye.
  - reflexivity.
  - rewrite (findPath_step depth self 0 0 xe ye cm c Hcm Hc Hne)
      by (intros [= ? ?]; lia).
    change (2 * 0 + 1) with 1. rewrite Hbest. cbn [fst snd].
    apply IH; [by rewrite append_path_costMatrix | lia | lia].
Qed.

Lemma findPath_slope_never_arrives (depth : nat) :
  (findPath depth (set_costMatrix map_open (Some field_slope)) 0 0 1 1).1
  = Raise RecursionDepthExceeded.
Proof.
  apply (findPath_held_in_corner field_slope 5 0); try done.
Qed.







(** C4 (amended): at a current position that is not blocked and is not
    the end, [findPath] never compares its neighbours with the value of
    the current position.  It raises ([TypeError], which reaches the
    caller) exactly when no candidate neighbour holds less than 10000000;
    otherwise it goes on, with a recursive call, from a candidate of
    lowest value, be that value lower than the current one or not. *)
Theorem findPath_follows_lowest_candidate
        (depth : nat) (self : Map2D) (xi yi xe ye : Z)
        (cm : np.ndarray) (c : Z) (best : option (Z * Z)) (low_path : Z) :
  costMatrix self = Some cm ->
  np.getitem cm (2 * xi + 1) (2 * yi + 1) = Ok c -> c <> -1 ->
  (xi, yi) <> (xe, ye) ->
  best_step (Some cm) (2 * xi + 1) (2 * yi + 1) = Ok (best, low_path) ->
  (best = None <->
   forall p v, candidate cm (2 * xi + 1) (2 * yi + 1) p ->
               np.getitem cm p.1 p.2 = Ok v -> 10000000 <= v) /\
  (best = None ->
   findPath (S depth) self xi yi xe ye
   = (Raise TypeError, append_path self (2 * xi + 1) (2 * yi + 1))) /\
  (forall step, best = Some step ->
     candidate cm (2 * xi + 1) (2 * yi + 1) step /\
     np.getitem cm step.1 step.2 = Ok low_path /\
     (forall p v, candidate cm (2 * xi + 1) (2 * yi + 1) p ->
                  np.getitem cm p.1 p.2 = Ok v -> low_path <= v) /\
     findPath (S depth) self xi yi xe ye
     = findPath depth (append_path self (2 * xi + 1) (2 * yi + 1))
                step.1 step.2 (2 * xe + 1) (2 * ye + 1)).
Proof.
  intros Hcm Hc Hne Hcell Hbest.
  pose proof (findPath_step depth self xi yi xe ye cm c Hcm Hc Hne Hcell) as Hstep.
  rewrite Hbest in Hstep.
  apply best_step_inv in Hbest as (Hle & Hlow & Hnone & Hsome). cbn [fst snd] in *.
  split; [split |]; [| | split].
  - intros -> p v Hp Hv. rewrite <- (Hnone eq_refl). exact (Hlow p v Hp Hv).
  - intros Hall. destruct best as [s |]; [| done].
    destruct (Hsome s eq_refl) as (Hcand & Hs & Hlt).
    specialize (Hall s low_path Hcand Hs). lia.
  - intros ->. exact Hstep.
  - intros step ->. destruct (Hsome step eq_refl) as (Hcand & Hs & Hlt).
    split; [done |]. split; [done |]. split; [exact Hlow | exact Hstep].
Qed.

Lemma findPath_follows_lowest_candidate_witness :
  let self := set_costMatrix map_open (Some field_pit) in
  let cm := field_pit in
  costMatrix self = Some cm /\
  np.getitem cm (2 * 0 + 1) (2 * 0 + 1) = Ok 0 /\ 0 <> -1 /\
  (0, 0) <> (1, 1) /\
  best_step (Some cm) (2 * 0 + 1) (2 * 0 + 1) = Ok (Some (0, 0), 1) /\
  (Some (0, 0) = None <->
   forall p v, candidate cm (2 * 0 + 1) (2 * 0 + 1) p ->
               np.getitem cm p.1 p.2 = Ok v -> 10000000 <= v) /\
  (Some (0, 0) = None ->
   findPath 6 self 0 0 1 1
   = (Raise TypeError, append_path self (2 * 0 + 1) (2 * 0 + 1))) /\
  (forall step, Some (0, 0) = Some step ->
     candidate cm (2 * 0 + 1) (2 * 0 + 1) step /\
     np.getitem cm step.1 step.2 = Ok 1 /\
     (forall p v, candidate cm (2 * 0 + 1) (2 * 0 + 1) p ->
                  np.getitem cm p.1 p.2 = Ok v -> 1 <= v) /\
     findPath 6 self 0 0 1 1
     = findPath 5 (append_path self (2 * 0 + 1) (2 * 0 + 1))
                step.1 step.2 (2 * 1 + 1) (2 * 1 + 1)).
Proof.
  cbv zeta.
  split; [reflexivity |]. split; [reflexivity |]. split; [lia |].
  split; [discriminate |]. split; [vm_compute; reflexivity |].
  apply (findPath_follows_lowest_candidate 5
           (set_costMatrix map_open (Some field_pit)) 0 0 1 1 field_pit 0
           (Some (0, 0)) 1).
  - reflexivity.
  - reflexivity.
  - lia.
  - discriminate.
  - vm_compute. reflexivity.
Defined.

Lemma field_pit_local_minimum : local_minimum field_pit 1 1.
Proof.
  intros c p v Hc Hp Hv. injection Hc as <-.
  unfold candidate, orthogonal_moves, diagonal_moves in Hp.
  destruct Hp as [(i & Hi & ->) | (i & Hi & _ & ->)];
    repeat (apply elem_of_cons in Hi as [-> | Hi]);
    try (by apply not_elem_of_nil in Hi);
    vm_compute in Hv; injection Hv as <-; lia.
Qed.

(** C4, as the specification states it: at a position other than the end
    where no eligible neighbour holds less than the current position,
    [findPath] fails there and then.  With the pit field on the open 2x2
    map, the centre (1, 1) of the start cell (0, 0) holds 0, a local
    minimum, and is not the end (3, 3); [findPath] does not fail at it
    but calls itself again and again, 1000 calls under a recursion limit
    of 1000, until that limit stops it. *)
Lemma findPath_loops_at_local_minimum :
  let self := set_costMatrix map_open (Some field_pit) in
  np.getitem field_pit (2 * 0 + 1) (2 * 0 + 1) = Ok 0 /\
  local_minimum field_pit (2 * 0 + 1) (2 * 0 + 1) /\
  (2 * 0 + 1, 2 * 0 + 1) <> (2 * 1 + 1, 2 * 1 + 1) /\
  findPath 2 self 0 0 1 1
  = findPath 1 (append_path self 1 1) 0 0 3 3 /\
  findPath_calls 1000 self 0 0 1 1 = 1000%nat /\
  (findPath 1000 self 0 0 1 1).1 = Raise RecursionDepthExceeded.
Proof.
  cbv zeta. split; [reflexivity |]. split; [exact field_pit_local_minimum |].
  split; [discriminate |]. repeat split; vm_compute; reflexivity.
Qed.

Lemma findPath_blocked_start (depth : nat) (self : Map2D) (xi yi xe ye : Z)
      (cm : np.ndarray) :
  costMatrix self = Some cm ->
  np.getitem cm (2 * xi + 1) (2 * yi + 1) = Ok (-1) ->
  findPath (S depth) self xi yi xe ye
  = (Ok false, append_path self (2 * xi + 1) (2 * yi + 1)).
Proof.
  intros Hcm Hc. cbn [findPath].
  rewrite append_path_costMatrix, Hcm. cbn [np.getitem_opt]. rewrite Hc.
  by rewrite decide_True.
Qed.

(** C2 on the documented map, with the grid that [fillCostMatrix]
    computes for the goal cell (1, 1) stored in [costMatrix]: cell (0, 0)
    is connected to cell (1, 1) and its centre holds cost 2, yet
    [findPath(0, 0, 1, 1)] raises [IndexError].  From the centre (1, 1)
    it steps onto the closed border position (1, 0), which holds -1, the
    lowest value around; it then takes (1, 0) for a cell, goes to (3, 1),
    steps onto (3, 0), and reads [costMatrix[7, 1]]. *)
Theorem findPath_map0_raises_IndexError :
  let self := set_costMatrix map0 (Some field0) in
  grid_of (fillCostMatrix_locals 3 map0 (1, 1)) = field0 /\
  isConnected map0 0 0 0 = Ok 1 /\
  isConnected map0 0 0 1 = Ok 1 /\
  isConnected map0 0 0 2 = Ok 1 /\
  np.getitem field0 (2 * 0 + 1) (2 * 0 + 1) = Ok 2 /\
  best_step (Some field0) 1 1 = Ok (Some (1, 0), -1) /\
  (findPath 1000 self 0 0 1 1).1 = Raise IndexError /\
  path_of (findPath 1000 self 0 0 1 1).2 = [(1, 1); (3, 1); (7, 1)].
Proof. cbv zeta. repeat split; vm_compute; reflexivity. Qed.

(** C5 on the documented map, with the same [costMatrix]: two walks
    that succeed, from cell (0, 0) to itself and then from cell (2, 2) to
    itself, leave in [currentPath] the consecutive entries (1, 1) and
    (5, 5), which are four positions apart. *)
Theorem findPath_entries_not_adjacent :
  let self := set_costMatrix map0 (Some field0) in
  let first := findPath 1000 self 0 0 0 0 in
  let second := findPath 1000 first.2 2 2 2 2 in
  first.1 = Ok true /\
  path_of first.2 = [(1, 1)] /\
  second.1 = Ok true /\
  path_of second.2 = [(1, 1); (5, 5)].
Proof. cbv zeta. repeat split; vm_compute; reflexivity. Qed.

(** C6 on the map with a wall, with the grid computed for the goal cell
    (0, 0) stored in [costMatrix]: the centre of cell (2, 0) is blocked
    and [findPath] from it returns [False]; the centre of cell (1, 0) is
    unvisited and [findPath] from it does not return [False]: it steps to
    the unvisited position (4, 1), takes it for a cell and raises
    [IndexError] on reading [costMatrix[9, 3]]. *)
Theorem findPath_unvisited_start_not_like_blocked :
  let self := set_costMatrix map_wall (Some field_wall) in
  grid_of (fillCostMatrix_locals 3 map_wall (0, 0)) = field_wall /\
  np.getitem field_wall (2 * 2 + 1) (2 * 0 + 1) = Ok (-1) /\
  (findPath 1000 self 2 0 0 0).1 = Ok false /\
  np.getitem field_wall (2 * 1 + 1) (2 * 0 + 1) = Ok (-2) /\
  (findPath 1000 self 1 0 0 0).1 = Raise IndexError /\
  path_of (findPath 1000 self 1 0 0 0).2 = [(3, 1); (9, 3)].
Proof. cbv zeta. repeat split; vm_compute; reflexivity. Qed.

(** ** Cells outside the map *)

Lemma foldM_inv {A B : Type} (P : A -> Prop) (f : A -> B -> result A) (l : list B) :
  (forall a b, P a -> b ∈ l -> exists a', f a b = Ok a' /\ P a') ->
  forall a, P a -> exists a', foldM f a l = Ok a' /\ P a'.
Proof.
  induction l as [| b l IH]; intros Hf a Ha; cbn [foldM].
  - by exists a.
  - destruct (Hf a b Ha) as (a1 & -> & Ha1); [by left |]. cbn.
    apply IH; [| done]. intros a2 b2 Ha2 Hb2. apply Hf; [done | by right].
Qed.

Lemma full_shape (nx ny v : Z) :
  0 <= nx -> 0 <= ny -> np.has_shape nx ny (np.full nx ny v).
Proof.
  intros Hx Hy. unfold np.has_shape, np.full. repeat split; try done.
  - rewrite length_replicate. lia.
  - apply Forall_replicate. rewrite length_replicate. lia.
Qed.

Lemma init_grid_shape (self : Map2D) :
  loaded self ->
  exists grid,
    init_grid self (2 * sizeX self + 1) (2 * sizeY self + 1) = Ok grid /\
    np.has_shape (2 * sizeX self + 1) (2 * sizeY self + 1) grid.
Proof.
  intros (Hsx & Hsy & c & Hc & Hshape). unfold init_grid.
  rewrite decide_False by lia.
  apply (foldM_inv (np.has_shape (2 * sizeX self + 1) (2 * sizeY self + 1))).
  - intros grid i Hgrid Hi. apply elem_of_seqZ in Hi.
    apply (foldM_inv (np.has_shape (2 * sizeX self + 1) (2 * sizeY self + 1)));
      [| done].
    intros grid1 j Hgrid1 Hj. apply elem_of_seqZ in Hj.
    unfold init_cell. rewrite Hc. cbn [np.getitem_opt].
    rewrite (getitem_inrange _ _ _ Hshape i j) by lia. cbn.
    case_decide.
    + destruct (setitem_inrange _ _ _ Hgrid1 i j (-1)) as [grid2 Hset]; [lia | lia |].
      exists grid2. split; [done |]. by apply (setitem_shape _ _ _ Hgrid1 _ _ _ _ Hset).
    + by exists grid1.
  - apply full_shape; lia.
Qed.

Lemma isConnected_raises (self : Map2D) (x y d cx cy : Z) :
  loaded self ->
  _cell2connCoord x y d = Ok (cx, cy) ->
  isConnected self x y d = Raise IndexError <-> ~ accepted_index self cx cy.
Proof.
  intros (Hsx & Hsy & c & Hc & Hshape) Hconn.
  unfold isConnected. rewrite Hconn, Hc. cbn.
  apply (getitem_raise _ _ _ Hshape).
Qed.

Lemma fillCostMatrix_raises (rounds : nat) (self : Map2D) (gx gy : Z) :
  loaded self ->
  ~ accepted_index self (2 * gx + 1) (2 * gy + 1) ->
  fillCostMatrix rounds self (gx, gy) = Some (Raise IndexError).
Proof.
  intros Hl Hout. unfold fillCostMatrix, fillCostMatrix_locals. cbn [fst snd].
  destruct (init_grid_shape self Hl) as (grid & Hinit & Hshape).
  replace (init_grid _ _ _) with (Ok (A := np.ndarray) grid).
  cbn. apply (setitem_raise _ _ _ Hshape _ _ 0) in Hout. by rewrite Hout.
Qed.

(** C9 (amended): neither [isConnected] nor [fillCostMatrix] checks the
    cell against the extents of the map; the only check is the one numpy
    makes on the index.  So [isConnected] raises [IndexError] exactly
    when the connection position it computes is not an index numpy
    accepts for the grid, that is, is not in
    [-(2 sizeX + 1), 2 sizeX + 1) x [-(2 sizeY + 1), 2 sizeY + 1); and
    [fillCostMatrix] raises [IndexError] whenever the centre position of
    the goal cell is not such an index. *)
Theorem out_of_range_raises_IndexError (self : Map2D) :
  loaded self ->
  (forall x y d cx cy,
     _cell2connCoord x y d = Ok (cx, cy) ->
     (isConnected self x y d = Raise IndexError <-> ~ accepted_index self cx cy)) /\
  (forall rounds gx gy,
     ~ accepted_index self (2 * gx + 1) (2 * gy + 1) ->
     fillCostMatrix rounds self (gx, gy) = Some (Raise IndexError)).
Proof.
  intros Hl. split.
  - intros x y d cx cy. by apply isConnected_raises.
  - intros rounds gx gy. by apply fillCostMatrix_raises.
Qed.

Lemma out_of_range_raises_IndexError_witness :
  loaded map0 /\
  isConnected map0 4 0 2 = Raise IndexError /\
  fillCostMatrix 3 map0 (3, 0) = Some (Raise IndexError).
Proof.
  split; [exact map0_loaded |].
  destruct (out_of_range_raises_IndexError map0 map0_loaded) as [Hconn Hfill].
  split.
  - apply (Hconn 4 0 2 10 1); [reflexivity |]. unfold accepted_index. cbn. lia.
  - apply Hfill. unfold accepted_index. cbn. lia.
Defined.

(** C9, as the specification states it: for a cell outside the map
    [isConnected] and [fillCostMatrix] fail and neither reads nor writes
    the grid.  On the documented map, [isConnected] for the cell (-1, 0)
    and direction 2 reads [connectionMatrix[0, 1]], and for the cell
    (3, 0) and direction 6 reads [connectionMatrix[6, 1]]; and
    [fillCostMatrix] for the goal cell (-1, -1) writes cost 0 at the
    closed corner (6, 6) of its grid, through the index (-1, -1), and
    ends without an error. *)
Lemma out_of_range_cells_are_read_and_written :
  ~ (0 <= -1 < sizeX map0) /\ ~ (0 <= 3 < sizeX map0) /\
  isConnected map0 (-1) 0 2 = Ok 0 /\
  isConnected map0 3 0 6 = Ok 0 /\
  np.getitem_opt (connectionMatrix map0) 6 6 = Ok 0 /\
  exists self' grid,
    fillCostMatrix 3 map0 (-1, -1) = Some (Ok (self', [])) /\
    fillCostMatrix_locals 3 map0 (-1, -1) = Some (Ok (self', grid, [])) /\
    np.getitem grid 6 6 = Ok 0.
Proof.
  split; [cbn; lia |]. split; [cbn; lia |].
  split; [vm_compute; reflexivity |]. split; [vm_compute; reflexivity |].
  split; [vm_compute; reflexivity |].
  eexists _, _. split; [vm_compute; reflexivity |].
  split; vm_compute; reflexivity.
Qed.

(** * Further properties *)

(** ** Connections between cells *)

Lemma setitem_setitem (a a1 : np.ndarray) (x y v1 v2 : Z) :
  np.setitem a x y v1 = Ok a1 ->
  np.setitem a1 x y v2 = np.setitem a x y v2.
Proof.
  unfold np.setitem.
  destruct (np.index (length a) x) as [i | e] eqn:Hi; cbn; [| done].
  destruct (a !! i) as [row |] eqn:Hrow; [| done].
  destruct (np.index (length row) y) as [j | e] eqn:Hj; cbn; [| done].
  intros [= <-]. rewrite length_insert, Hi. cbn.
  rewrite list_lookup_insert_eq by (by apply lookup_lt_Some in Hrow).
  rewrite length_insert, Hj. cbn.
  by rewrite !list_insert_insert_eq.
Qed.

Lemma getitem_setitem_same (a a' : np.ndarray) (x y v : Z) :
  np.setitem a x y v = Ok a' -> np.getitem a' x y = Ok v.
Proof.
  unfold np.setitem, np.getitem.
  destruct (np.index (length a) x) as [i | e] eqn:Hi; cbn; [| done].
  destruct (a !! i) as [row |] eqn:Hrow; [| done].
  destruct (np.index (length row) y) as [j | e] eqn:Hj; cbn; [| done].
  intros [= <-]. rewrite length_insert, Hi. cbn.
  rewrite list_lookup_insert_eq by (by apply lookup_lt_Some in Hrow).
  rewrite length_insert, Hj. cbn.
  apply index_ok in Hj as [Hj _].
  by rewrite list_lookup_insert_eq.
Qed.

(** X1: a connection belongs to the two cells it joins.  The position
    of the connection matrix that stands for direction [d] of a cell is
    the one that stands for the opposite direction of the cell that [d]
    points to; so [isConnected] answers the same on both sides, and
    [setConnection] and [deleteConnection] from either side are the same
    operation. *)
Theorem connection_shared_by_both_cells (self : Map2D) (x y d : Z) :
  0 <= d < 8 ->
  let n := neighbour_cell x y d in
  _cell2connCoord x y d = _cell2connCoord n.1 n.2 (opposite d) /\
  isConnected self x y d = isConnected self n.1 n.2 (opposite d) /\
  setConnection self x y d = setConnection self n.1 n.2 (opposite d) /\
  deleteConnection self x y d = deleteConnection self n.1 n.2 (opposite d).
Proof.
  intros Hd n.
  assert (Hc : _cell2connCoord x y d = _cell2connCoord n.1 n.2 (opposite d)).
  { subst n.
    destruct (direction_cases d Hd) as [-> | [-> | [-> | [-> | [-> | [-> | [-> | ->]]]]]]];
      match goal with
      | |- context [opposite ?k] =>
          let v := eval vm_compute in (opposite k) in change (opposite k) with v
      end; cbn; do 2 f_equal; lia. }
  unfold isConnected, setConnection, deleteConnection, write_connection.
  by rewrite Hc.
Qed.

Lemma connection_shared_by_both_cells_witness :
  0 <= 1 < 8 /\
  _cell2connCoord 0 0 1 = _cell2connCoord 1 1 5 /\
  isConnected map0 0 0 1 = isConnected map0 1 1 5 /\
  setConnection map0 0 0 1 = setConnection map0 1 1 5 /\
  deleteConnection map0 0 0 1 = deleteConnection map0 1 1 5.
Proof.
  split; [lia |].
  apply (connection_shared_by_both_cells map0 0 0 1). lia.
Defined.

(** X2: on a loaded map, for a cell of the map and a direction in 0..7,
    [setConnection] and [deleteConnection] succeed, keep the map loaded
    with its sizes, and [isConnected] then answers 1 and 0. *)
Theorem isConnected_after_write (self : Map2D) (x y d : Z) :
  loaded self -> 0 <= x < sizeX self -> 0 <= y < sizeY self -> 0 <= d < 8 ->
  (exists self', setConnection self x y d = Ok self' /\ loaded self' /\
                 sizeX self' = sizeX self /\ sizeY self' = sizeY self /\
                 isConnected self' x y d = Ok 1) /\
  (exists self', deleteConnection self x y d = Ok self' /\ loaded self' /\
                 sizeX self' = sizeX self /\ sizeY self' = sizeY self /\
                 isConnected self' x y d = Ok 0).
Proof.
  intros Hl Hx Hy Hd.
  destruct (_cell2connCoord_inrange _ _ x y d Hx Hy Hd) as (cx & cy & Hc & Hcx & Hcy).
  split.
  - exact (write_connection_inrange self x y d 1 cx cy Hl Hc Hcx Hcy).
  - exact (write_connection_inrange self x y d 0 cx cy Hl Hc Hcx Hcy).
Qed.

Lemma isConnected_after_write_witness :
  loaded map0 /\ 0 <= 2 < sizeX map0 /\ 0 <= 0 < sizeY map0 /\ 0 <= 6 < 8 /\
  (exists self', setConnection map0 2 0 6 = Ok self' /\ loaded self' /\
                 sizeX self' = sizeX map0 /\ sizeY self' = sizeY map0 /\
                 isConnected self' 2 0 6 = Ok 1) /\
  (exists self', deleteConnection map0 2 0 6 = Ok self' /\ loaded self' /\
                 sizeX self' = sizeX map0 /\ sizeY self' = sizeY map0 /\
                 isConnected self' 2 0 6 = Ok 0).
Proof.
  split; [exact map0_loaded |].
  split; [cbn; lia |]. split; [cbn; lia |]. split; [lia |].
  apply (isConnected_after_write map0 2 0 6);
    [exact map0_loaded | cbn; lia | cbn; lia | lia].
Defined.

(** X3: a write touches one position only.  On a loaded map, after
    [setConnection] or [deleteConnection] for one cell and direction,
    [isConnected] for another cell and direction of the map answers what
    it did before, unless both stand for the same position; the cost
    matrix and the recorded path are left alone. *)
Theorem write_leaves_other_connections (self self' : Map2D) (x y d v x' y' d' : Z) :
  loaded self ->
  0 <= x < sizeX self -> 0 <= y < sizeY self -> 0 <= d < 8 ->
  0 <= x' < sizeX self -> 0 <= y' < sizeY self -> 0 <= d' < 8 ->
  _cell2connCoord x y d <> _cell2connCoord x' y' d' ->
  write_connection self x y d v = Ok self' ->
  isConnected self' x' y' d' = isConnected self x' y' d' /\
  costMatrix self' = costMatrix self /\
  currentPath self' = currentPath self.
Proof.
  intros (Hsx & Hsy & c & Hc & Hshape) Hx Hy Hd Hx' Hy' Hd' Hne.
  destruct (_cell2connCoord_inrange _ _ x y d Hx Hy Hd) as (cx & cy & Hconn & Hcx & Hcy).
  destruct (_cell2connCoord_inrange _ _ x' y' d' Hx' Hy' Hd')
    as (cx' & cy' & Hconn' & Hcx' & Hcy').
  unfold write_connection, isConnected. rewrite Hconn, Hconn', Hc. cbn.
  destruct (np.setitem c cx cy v) as [c' | e] eqn:Hset; cbn; [| done].
  intros [= <-]. cbn. split; [| done].
  rewrite (getitem_setitem _ _ _ Hshape cx cy v c' cx' cy') by done.
  rewrite decide_False; [done |].
  intros [-> ->]. apply Hne. by rewrite Hconn, Hconn'.
Qed.

Lemma write_leaves_other_connections_witness :
  exists self',
    setConnection map0 0 0 6 = Ok self' /\
    isConnected self' 0 0 6 = Ok 1 /\
    isConnected map0 0 0 4 = Ok 0 /\
    isConnected self' 0 0 4 = isConnected map0 0 0 4 /\
    costMatrix self' = costMatrix map0 /\
    currentPath self' = currentPath map0.
Proof.
  destruct (write_connection_inrange map0 0 0 6 1 0 1 map0_loaded eq_refl)
    as (self' & Hw & _ & _ & _ & Hread); [cbn; lia | cbn; lia |].
  exists self'. split; [exact Hw |]. split; [exact Hread |].
  split; [reflexivity |].
  apply (write_leaves_other_connections map0 self' 0 0 6 1 0 0 4);
    [exact map0_loaded | cbn; lia | cbn; lia | lia | cbn; lia | cbn; lia | lia
    | discriminate | exact Hw].
Defined.

(** X4: a direction outside 0..7 is a missing key of the table in
    [_cell2connCoord]: the three operations raise [KeyError], whatever
    the cell and even on a map that was never loaded. *)
Theorem direction_outside_table_KeyError (self : Map2D) (x y d : Z) :
  ~ (0 <= d < 8) ->
  isConnected self x y d = Raise KeyError /\
  setConnection self x y d = Raise KeyError /\
  deleteConnection self x y d = Raise KeyError.
Proof.
  intros Hd.
  assert (Hc : _cell2connCoord x y d = Raise KeyError).
  { unfold _cell2connCoord. destruct d as [| p | p]; [lia | | done].
    do 3 (try match goal with q : positive |- _ => destruct q end);
      first [done | lia]. }
  unfold isConnected, setConnection, deleteConnection, write_connection.
  by rewrite Hc.
Qed.

Lemma direction_outside_table_KeyError_witness :
  ~ (0 <= 8 < 8) /\
  isConnected unloaded 0 0 8 = Raise KeyError /\
  setConnection unloaded 0 0 8 = Raise KeyError /\
  deleteConnection unloaded 0 0 8 = Raise KeyError.
Proof.
  split; [lia |]. apply (direction_outside_table_KeyError unloaded 0 0 8). lia.
Defined.

(** X5: the last write wins.  Whatever the map, cell and direction, a
    write that follows a successful write to the same connection leaves
    the object exactly as the second write alone would: setting twice is
    setting once, and [deleteConnection] after [setConnection] is
    [deleteConnection]. *)
Theorem last_write_wins (self self1 : Map2D) (x y d v1 v2 : Z) :
  write_connection self x y d v1 = Ok self1 ->
  write_connection self1 x y d v2 = write_connection self x y d v2.
Proof.
  unfold write_connection.
  destruct (_cell2connCoord x y d) as [[cx cy] | e]; cbn; [| done].
  destruct (connectionMatrix self) as [c |]; [| done].
  destruct (np.setitem c cx cy v1) as [c1 | e] eqn:Hset; cbn; [| done].
  intros [= <-]. cbn. rewrite (setitem_setitem _ _ _ _ _ v2 Hset).
  by destruct (np.setitem c cx cy v2).
Qed.

Lemma last_write_wins_witness :
  exists self1,
    setConnection map0 1 1 0 = Ok self1 /\
    deleteConnection self1 1 1 0 = deleteConnection map0 1 1 0 /\
    setConnection self1 1 1 0 = setConnection map0 1 1 0.
Proof.
  destruct (write_connection_inrange map0 1 1 0 1 3 4 map0_loaded eq_refl)
    as (self1 & Hw & _); [cbn; lia | cbn; lia |].
  exists self1. split; [exact Hw |]. split.
  - exact (last_write_wins map0 self1 1 1 0 1 0 Hw).
  - exact (last_write_wins map0 self1 1 1 0 1 1 Hw).
Defined.

(** ** Loading *)

Lemma set_column_length (c : np.ndarray) (y : nat) (line : list Z) :
  length line = length c -> length (set_column c y line) = length c.
Proof. intros H. unfold set_column. rewrite length_zip_with. lia. Qed.

Lemma set_column_lookup (c : np.ndarray) (y : nat) (line : list Z) (x : nat) :
  set_column c y line !! x = (row ← c !! x; v ← line !! x; Some (<[y := v]> row)).
Proof.
  unfold set_column. rewrite lookup_zip_with.
  destruct (c !! x); [| done]. cbn. by destruct (line !! x).
Qed.

Lemma set_column_shape (nx ny : Z) (c : np.ndarray) (y : nat) (line : list Z) :
  np.has_shape nx ny c -> length line = length c ->
  np.has_shape nx ny (set_column c y line).
Proof.
  intros (Hnx & Hny & Hlen & Hrows) Hline. repeat split; try done.
  - by rewrite set_column_length.
  - apply Forall_lookup. intros x row'. rewrite set_column_lookup.
    destruct (c !! x) as [row |] eqn:Hrow; [| done]. cbn.
    destruct (line !! x) as [v |]; [| done]. cbn. intros [= <-].
    rewrite length_insert. exact (proj1 (Forall_lookup _ _) Hrows x row Hrow).
Qed.

(** The entry (x, y) of a matrix, if there is one. *)
Lemma _loadMap_rows_spec (nx ny : Z) (lines : list (list Z)) :
  forall (c c' : np.ndarray) (indx : nat),
  np.has_shape nx ny c ->
  _loadMap_rows c (Z.to_nat ny) indx lines = Some c' ->
  np.has_shape nx ny c' /\
  forall x y : nat, (Z.of_nat x < nx) -> (Z.of_nat y < ny) ->
    (row ← c' !! x; row !! y) =
    match (if decide (indx + y < Z.to_nat ny)%nat
           then (line ← lines !! (Z.to_nat ny - 1 - y - indx)%nat; line !! x)
           else None) with
    | Some v => Some v
    | None => row ← c !! x; row !! y
    end.
Proof.
  induction lines as [| line rest IH]; intros c c' indx Hshape; cbn [_loadMap_rows].
  - intros [= <-]. split; [done |]. intros x y Hx Hy.
    case_decide; [| done]. by rewrite lookup_nil.
  - pose proof Hshape as (Hnx & Hny & Hlen & Hrows).
    case_decide as Hfull.
    + destruct Hfull as [Hwidth Hindx]. intros Hrec.
      apply IH in Hrec as [Hshape' Hval]; [| by apply set_column_shape].
      split; [done |]. intros x y Hx Hy. rewrite (Hval x y Hx Hy).
      destruct (decide (indx + y = Z.to_nat ny - 1)%nat) as [Hy' | Hy'].
      * rewrite decide_False by lia. rewrite decide_True by lia.
        replace (Z.to_nat ny - 1 - y - indx)%nat with 0%nat by lia. cbn.
        replace (Z.to_nat ny - 1 - indx)%nat with y by lia.
        rewrite set_column_lookup.
        destruct (lookup_lt_is_Some_2 c x) as [row Hrow]; [lia |].
        destruct (lookup_lt_is_Some_2 line x) as [v Hv]; [lia |].
        rewrite Hrow, Hv. cbn. apply list_lookup_insert_eq.
        pose proof (proj1 (Forall_lookup _ _) Hrows x row Hrow) as Hr.
        cbn beta in Hr. lia.
      * assert (Hother : (row ← set_column c (Z.to_nat ny - 1 - indx) line !! x; row !! y)
                         = (row ← c !! x; row !! y)).
        { rewrite set_column_lookup.
          destruct (lookup_lt_is_Some_2 c x) as [row Hrow]; [lia |].
          destruct (lookup_lt_is_Some_2 line x) as [v Hv]; [lia |].
          rewrite Hrow, Hv. cbn. apply list_lookup_insert_ne. lia. }
        rewrite Hother.
        destruct (decide (indx + y < Z.to_nat ny)%nat) as [Hlt | Hge].
        -- rewrite decide_True by lia.
           replace (Z.to_nat ny - 1 - y - indx)%nat
             with (S (Z.to_nat ny - 1 - y - S indx))%nat by lia.
           done.
        -- by rewrite decide_False by lia.
    + case_decide as Hblank; [| done]. intros Hrec.
      apply IH in Hrec as [Hshape' Hval]; [| done].
      split; [done |]. intros x y Hx Hy. rewrite (Hval x y Hx Hy).
      apply nil_length_inv in Hblank as ->.
      destruct (decide (indx + y = Z.to_nat ny - 1)%nat) as [Hy' | Hy'].
      * rewrite decide_False by lia. rewrite decide_True by lia.
        replace (Z.to_nat ny - 1 - y - indx)%nat with 0%nat by lia. done.
      * destruct (decide (indx + y < Z.to_nat ny)%nat) as [Hlt | Hge].
        -- rewrite decide_True by lia.
           replace (Z.to_nat ny - 1 - y - indx)%nat
             with (S (Z.to_nat ny - 1 - y - S indx))%nat by lia.
           done.
        -- by rewrite decide_False by lia.
Qed.

(** X6: a load that succeeds leaves a well-formed object: the sizes are
    those of the header and are not negative, the connection matrix has
    the shape (2 sizeX + 1, 2 sizeY + 1), and there is no cost matrix and
    no path yet. *)
Theorem _loadMap_gives_loaded_map (header : list Z) (lines : list (list Z)) (self : Map2D) :
  _loadMap header lines = Some self ->
  loaded self /\
  header = [sizeX self; sizeY self; sizeCell self] /\
  costMatrix self = None /\ currentPath self = None.
Proof.
  unfold _loadMap.
  destruct header as [| sx [| sy [| cell [| ? ?]]]]; try done.
  case_decide as Hdim; [| done].
  destruct (_loadMap_rows _ _ _ _) as [c |] eqn:Hrows; [| done].
  cbn. intros [= <-]. cbn.
  apply (_loadMap_rows_spec (2 * sx + 1) (2 * sy + 1)) in Hrows as [Hshape _];
    [| apply full_shape; lia].
  split; [| done]. unfold loaded. cbn.
  split; [lia |]. split; [lia |]. by exists c.
Qed.

Lemma _loadMap_gives_loaded_map_witness :
  _loadMap [1; 1; 400] [[0; 0; 0]; [0; 1; 0]; [0; 0; 0]]
  = Some (mkMap2D 1 1 400 (Some [[0; 0; 0]; [0; 1; 0]; [0; 0; 0]]) None None 0 0) /\
  loaded (mkMap2D 1 1 400 (Some [[0; 0; 0]; [0; 1; 0]; [0; 0; 0]]) None None 0 0).
Proof.
  split; [vm_compute; reflexivity |].
  apply (_loadMap_gives_loaded_map [1; 1; 400] [[0; 0; 0]; [0; 1; 0]; [0; 0; 0]]).
  vm_compute. reflexivity.
Defined.



(** The load from tokens that are all integers is the load of these
    integers. *)
Lemma _loadMap_token_rows_parsed (lines : list (list Z)) :
  forall (c : np.ndarray) (ny indx : nat),
  _loadMap_token_rows Some c ny indx lines = _loadMap_rows c ny indx lines.
Proof.
  induction lines as [| line rest IH]; intros c ny indx; [done |].
  cbn [_loadMap_token_rows _loadMap_rows].
  assert (Hmap : mapM Some line = Some line).
  { apply mapM_Some_2. by apply Forall2_same_length_lookup_2; [| intros; simplify_eq]. }
  rewrite Hmap. by rewrite !IH.
Qed.

Lemma _loadMap_tokens_parsed (header : list Z) (lines : list (list Z)) :
  _loadMap_tokens Some header lines = _loadMap header lines.
Proof.
  unfold _loadMap_tokens, _loadMap.
  assert (Hmap : mapM Some header = Some header).
  { apply mapM_Some_2. by apply Forall2_same_length_lookup_2; [| intros; simplify_eq]. }
  rewrite Hmap. cbn [mbind option_bind].
  destruct header as [| sx [| sy [| cell [| ? ?]]]]; try done.
  by rewrite _loadMap_token_rows_parsed.
Qed.




(** ** One call of propagateWavefront, one call of incrementWavefront *)

Lemma getitem_cost (self : Map2D) (grid : np.ndarray) (x y : Z) :
  grid_shape self grid -> in_grid self x y ->
  np.getitem grid x y = Ok (cost grid (x, y)).
Proof. intros Hs [Hx Hy]. exact (getitem_inrange _ _ _ Hs x y Hx Hy). Qed.

Lemma relaxed_cases (o g : Z) :
  (relaxed o g = g \/ relaxed o g = o + 1) /\
  (g <> -2 -> relaxed o g <= g) /\
  (o <> -3 -> relaxed o g <> -2) /\
  ~ (relaxed o g > o + 1 /\ relaxed o g <> -1).
Proof. unfold relaxed. repeat case_decide; lia. Qed.

Lemma propagate_neighbor_count (self : Map2D) (origin : Z * Z)
      (grid grid' : np.ndarray) (n n' : Z) (i : nat) :
  propagate_neighbor self origin (grid, n) i = Ok (grid', n') ->
  n <= n' <= n + 1.
Proof.
  unfold propagate_neighbor.
  case_decide; [| intros [=]; lia].
  destruct (np.getitem grid (origin.1 + _) _) as [g | e]; cbn; [| done].
  destruct (np.getitem grid origin.1 origin.2) as [o | e]; cbn;
    [| by case_decide].
  destruct (np.setitem grid _ _ _) as [grid1 | e]; cbn;
    repeat case_decide; intros [=]; lia.
Qed.

Lemma propagate_fold_count (self : Map2D) (origin : Z * Z) (l : list nat) :
  forall (grid grid' : np.ndarray) (n n' : Z),
  foldM (propagate_neighbor self origin) (grid, n) l = Ok (grid', n') ->
  n <= n' <= n + Z.of_nat (length l).
Proof.
  induction l as [| i l IH]; intros grid grid' n n'; cbn [foldM].
  - intros [= _ <-]. cbn. lia.
  - destruct (propagate_neighbor self origin (grid, n) i) as [[grid1 n1] | e] eqn:Hstep;
      cbn; [| done].
    apply propagate_neighbor_count in Hstep. intros Hfold%IH. cbn [length]. lia.
Qed.

(** The neighbours of a position, as a decidable question. *)
Lemma neighbor_pos_dec (origin p : Z * Z) :
  (exists i, (i < 8)%nat /\ p = neighbor_pos origin i) \/
  (forall i, i ∈ seq 0 8 -> p <> neighbor_pos origin i).
Proof.
  destruct (decide (p ∈ map (neighbor_pos origin) (seq 0 8))) as [Hin | Hout].
  - left. apply list_elem_of_fmap in Hin as (i & -> & Hi).
    exists i. split; [by apply seq_8_range | done].
  - right. intros i Hi ->. apply Hout. apply list_elem_of_fmap. by exists i.
Qed.

(** X9: what one call changes.  From an origin inside the grid,
    [propagateWavefront] ends without exception, keeps the shape of the
    grid and returns a count between 0 and 8.  A position of the grid
    either keeps its value or takes the value of the origin plus one; it
    keeps it if it is the origin, if it is blocked (-1), or if it is not
    one of the 8 neighbours; and a position that was already visited
    (not -2) never gets a larger value. *)
Theorem propagateWavefront_changes (self : Map2D) (grid : np.ndarray) (ox oy o : Z) :
  grid_shape self grid -> in_grid self ox oy ->
  np.getitem grid ox oy = Ok o ->
  exists grid' numberUpdates,
    propagateWavefront self grid (ox, oy) = Ok (grid', numberUpdates) /\
    grid_shape self grid' /\
    0 <= numberUpdates <= 8 /\
    np.getitem grid' ox oy = Ok o /\
    forall x y g, in_grid self x y -> np.getitem grid x y = Ok g ->
      exists g', np.getitem grid' x y = Ok g' /\
        (g' = g \/ g' = o + 1) /\
        (g = -1 -> g' = -1) /\
        (g <> -2 -> g' <= g) /\
        ((forall i, (i < 8)%nat -> (x, y) <> neighbor_pos (ox, oy) i) -> g' = g).
Proof.
  intros Hs Ho Hov.
  destruct (propagate_fold_spec self (seq 0 8) ox oy o (NoDup_seq 0 8)
              (fun i Hi => proj1 (seq_8_range i) Hi) grid 0 Hs Ho Hov)
    as (grid' & n' & Hfold & Hs' & Hhit & Hmiss).
  exists grid', n'. split; [exact Hfold |]. split; [exact Hs' |].
  split; [apply propagate_fold_count in Hfold; cbn in Hfold; lia |].
  split.
  { rewrite Hmiss; [done | done |]. intros i Hi E. symmetry in E.
    apply (neighbor_pos_origin (ox, oy) i); [by apply seq_8_range | done]. }
  intros x y g Hin Hg.
  pose proof (relaxed_cases o g) as (Hcase & Hle & _ & _).
  destruct (neighbor_pos_dec (ox, oy) (x, y)) as [(i & Hi & Hp) | Hfar].
  - exists (relaxed o g). split.
    + assert (Hx : x = (neighbor_pos (ox, oy) i).1) by (by rewrite <- Hp).
      assert (Hy : y = (neighbor_pos (ox, oy) i).2) by (by rewrite <- Hp).
      rewrite Hx, Hy. apply Hhit; [by apply seq_8_range | by rewrite <- Hx, <- Hy |].
      by rewrite <- Hx, <- Hy.
    + split; [exact Hcase |]. split; [intros ->; apply relaxed_blocked |].
      split; [exact Hle |]. intros Hfar. by destruct (Hfar i Hi).
  - exists g. split; [by rewrite Hmiss |].
    split; [by left |]. split; [done |]. split; [lia | done].
Qed.

Lemma propagateWavefront_changes_witness :
  let self := mkMap2D 1 1 400 None None None 3 3 in
  let grid := [[-1; -2; -1]; [5; 0; -2]; [-1; 1; -1]] in
  grid_shape self grid /\ in_grid self 1 1 /\ np.getitem grid 1 1 = Ok 0 /\
  exists grid' numberUpdates,
    propagateWavefront self grid (1, 1) = Ok (grid', numberUpdates) /\
    grid_shape self grid' /\
    0 <= numberUpdates <= 8 /\
    np.getitem grid' 1 1 = Ok 0 /\
    forall x y g, in_grid self x y -> np.getitem grid x y = Ok g ->
      exists g', np.getitem grid' x y = Ok g' /\
        (g' = g \/ g' = 0 + 1) /\
        (g = -1 -> g' = -1) /\
        (g <> -2 -> g' <= g) /\
        ((forall i, (i < 8)%nat -> (x, y) <> neighbor_pos (1, 1) i) -> g' = g).
Proof.
  intros self grid.
  assert (Hs : grid_shape self grid).
  { unfold np.has_shape. cbn. repeat split; try lia. repeat constructor. }
  assert (Hin : in_grid self 1 1) by (unfold in_grid; cbn; lia).
  split; [exact Hs |]. split; [exact Hin |]. split; [reflexivity |].
  exact (propagateWavefront_changes self grid 1 1 0 Hs Hin eq_refl).
Defined.

Lemma propagate_fold_stable (self : Map2D) (grid : np.ndarray) (ox oy o : Z) (l : list nat) :
  grid_shape self grid -> in_grid self ox oy -> np.getitem grid ox oy = Ok o ->
  (forall i, i ∈ l ->
     in_grid self (neighbor_pos (ox, oy) i).1 (neighbor_pos (ox, oy) i).2 ->
     cost grid (neighbor_pos (ox, oy) i) <> -2 /\
     ~ (cost grid (neighbor_pos (ox, oy) i) > o + 1 /\
        cost grid (neighbor_pos (ox, oy) i) <> -1)) ->
  forall n, foldM (propagate_neighbor self (ox, oy)) (grid, n) l = Ok (grid, n).
Proof.
  intros Hs Ho Hov. induction l as [| i l IH]; intros Hstable n; [done |].
  cbn [foldM].
  assert (Hstep : propagate_neighbor self (ox, oy) (grid, n) i = Ok (grid, n)).
  { unfold propagate_neighbor. cbn [fst snd].
    case_decide as Hin; [| done].
    destruct (Hstable i) as [H2 Hgt]; [by left | exact Hin |].
    rewrite (getitem_cost self grid _ _ Hs Hin). cbn.
    unfold neighbor_pos in H2, Hgt. cbn [fst snd] in H2, Hgt.
    rewrite decide_False by done. rewrite Hov. cbn.
    by rewrite decide_False. }
  rewrite Hstep. cbn. apply IH. intros j Hj. apply Hstable. by right.
Qed.

(** X10: a second call changes nothing.  From an origin inside the grid
    whose value is not -3 (the origins of [fillCostMatrix] hold 0 or
    more), calling [propagateWavefront] again on the grid that a first
    call left gives that same grid back and returns 0. *)
Theorem propagateWavefront_twice (self : Map2D) (grid grid' : np.ndarray)
        (ox oy o n : Z) :
  grid_shape self grid -> in_grid self ox oy ->
  np.getitem grid ox oy = Ok o -> o <> -3 ->
  propagateWavefront self grid (ox, oy) = Ok (grid', n) ->
  propagateWavefront self grid' (ox, oy) = Ok (grid', 0).
Proof.
  intros Hs Ho Hov Ho3 Hcall.
  destruct (propagate_fold_spec self (seq 0 8) ox oy o (NoDup_seq 0 8)
              (fun i Hi => proj1 (seq_8_range i) Hi) grid 0 Hs Ho Hov)
    as (grid1 & n1 & Hfold & Hs' & Hhit & Hmiss).
  unfold propagateWavefront in Hcall. rewrite Hfold in Hcall.
  injection Hcall as -> ->.
  assert (Hov' : np.getitem grid' ox oy = Ok o).
  { rewrite Hmiss; [done | done |]. intros i Hi E. symmetry in E.
    apply (neighbor_pos_origin (ox, oy) i); [by apply seq_8_range | done]. }
  apply (propagate_fold_stable self grid' ox oy o (seq 0 8) Hs' Ho Hov').
  intros i Hi Hin.
  pose proof (Hhit i _ Hi Hin (getitem_cost self grid _ _ Hs Hin)) as Hnew.
  rewrite (getitem_cost self grid' _ _ Hs' Hin) in Hnew.
  rewrite <- surjective_pairing in Hnew. injection Hnew as ->.
  pose proof (relaxed_cases o (cost grid ((neighbor_pos (ox, oy) i).1,
                                          (neighbor_pos (ox, oy) i).2)))
    as (_ & _ & H2 & Hgt).
  split; [by apply H2 | exact Hgt].
Qed.

Lemma propagateWavefront_twice_witness :
  let self := mkMap2D 1 1 400 None None None 3 3 in
  let grid := [[-1; -2; -1]; [5; 0; -2]; [-1; 1; -1]] in
  let grid' := [[-1; 1; -1]; [1; 0; 1]; [-1; 1; -1]] in
  propagateWavefront self grid (1, 1) = Ok (grid', 3) /\
  propagateWavefront self grid' (1, 1) = Ok (grid', 0).
Proof.
  intros self grid grid'.
  assert (Hs : grid_shape self grid).
  { unfold np.has_shape. cbn. repeat split; try lia. repeat constructor. }
  assert (Hin : in_grid self 1 1) by (unfold in_grid; cbn; lia).
  assert (Hcall : propagateWavefront self grid (1, 1) = Ok (grid', 3))
    by (vm_compute; reflexivity).
  split; [exact Hcall |].
  apply (propagateWavefront_twice self grid grid' 1 1 0 3 Hs Hin eq_refl);
    [lia | exact Hcall].
Defined.

Lemma increment_neighbor_spec (self : Map2D) (grid : np.ndarray) (cell : Z * Z)
      (w : list (Z * Z)) (i : nat) :
  grid_shape self grid -> in_grid self cell.1 cell.2 ->
  increment_neighbor self grid cell w i
  = Ok (w ++ filter (fun p => in_grid self p.1 p.2 /\ cost grid p <> -1 /\
                              cost grid p = cost grid cell + 1)
                    [neighbor_pos cell i]).
Proof.
  intros Hs Hc. unfold increment_neighbor. destruct cell as [cx cy].
  cbn [fst snd] in *. unfold neighbor_pos. cbn [fst snd].
  set (x := cx + neighbor0 i). set (y := cy + neighbor1 i).
  rewrite filter_cons, filter_nil. cbn [fst snd].
  case_decide as Hin.
  - rewrite !(getitem_cost self grid _ _ Hs Hin),
      (getitem_cost self grid _ _ Hs Hc). cbn.
    case_decide as Hnb.
    + cbn. case_decide as Heq.
      * by rewrite decide_True.
      * rewrite decide_False by tauto. by rewrite app_nil_r.
    + rewrite decide_False by tauto. by rewrite app_nil_r.
  - rewrite decide_False by tauto. by rewrite app_nil_r.
Qed.

Lemma increment_fold_spec (self : Map2D) (grid : np.ndarray) (cell : Z * Z)
      (l : list nat) :
  grid_shape self grid -> in_grid self cell.1 cell.2 ->
  forall w,
  foldM (increment_neighbor self grid cell) w l
  = Ok (w ++ filter (fun p => in_grid self p.1 p.2 /\ cost grid p <> -1 /\
                              cost grid p = cost grid cell + 1)
                    (map (neighbor_pos cell) l)).
Proof.
  intros Hs Hc. induction l as [| i l IH]; intros w; cbn [foldM map].
  - by rewrite filter_nil, app_nil_r.
  - rewrite (increment_neighbor_spec self grid cell w i Hs Hc). cbn.
    rewrite IH, <- app_assoc. f_equal. cbn. by case_decide.
Qed.

Lemma incrementWavefront_spec (self : Map2D) (grid : np.ndarray) (cells : list (Z * Z)) :
  grid_shape self grid ->
  (forall cell, cell ∈ cells -> in_grid self cell.1 cell.2) ->
  incrementWavefront self cells grid
  = Ok (concat (map (next_positions self grid) cells)).
Proof.
  intros Hs. unfold incrementWavefront.
  enough (Hgen : forall w,
    (forall cell, cell ∈ cells -> in_grid self cell.1 cell.2) ->
    foldM (fun w cell => foldM (increment_neighbor self grid cell) w (seq 0 8)) w cells
    = Ok (w ++ concat (map (next_positions self grid) cells))) by apply (Hgen []).
  induction cells as [| cell cells IH]; intros w Hcells; cbn [foldM map concat].
  - by rewrite app_nil_r.
  - rewrite (increment_fold_spec self grid cell (seq 0 8) Hs) by (apply Hcells; by left).
    cbn. rewrite IH by (intros c Hc; apply Hcells; by right).
    by rewrite <- app_assoc.
Qed.

Lemma elem_of_concat {A : Type} (x : A) (ls : list (list A)) :
  x ∈ concat ls <-> exists l, x ∈ l /\ l ∈ ls.
Proof.
  induction ls as [| l0 ls IH]; cbn [concat].
  - split; [by intros ?%not_elem_of_nil |]. intros (l & _ & Hl).
    by apply not_elem_of_nil in Hl.
  - rewrite elem_of_app, IH. split.
    + intros [Hx | (l & Hx & Hl)].
      * exists l0. split; [done | by left].
      * exists l. split; [done | by right].
    + intros (l & Hx & Hl). apply elem_of_cons in Hl as [-> | Hl]; [by left |].
      right. by exists l.
Qed.

(** X11: the next wavefront.  For a list of cells inside the grid,
    [incrementWavefront] ends without exception, and a position is in the
    list it returns exactly when it is one of the 8 neighbours of one of
    the cells, lies in the grid, is not blocked (-1) and holds the value
    of that cell plus one.  The list has at most 8 entries per cell. *)
Theorem incrementWavefront_collects (self : Map2D) (grid : np.ndarray)
        (cells : list (Z * Z)) :
  grid_shape self grid ->
  (forall cell, cell ∈ cells -> in_grid self cell.1 cell.2) ->
  exists w,
    incrementWavefront self cells grid = Ok w /\
    (length w <= 8 * length cells)%nat /\
    forall p, p ∈ w <->
      exists cell i g c,
        cell ∈ cells /\ (i < 8)%nat /\ p = neighbor_pos cell i /\
        in_grid self p.1 p.2 /\
        np.getitem grid p.1 p.2 = Ok g /\ np.getitem grid cell.1 cell.2 = Ok c /\
        g <> -1 /\ g = c + 1.
Proof.
  intros Hs Hcells. eexists. split; [by apply incrementWavefront_spec |]. split.
  - clear Hcells. induction cells as [| cell cells IH]; cbn [map concat length]; [lia |].
    rewrite length_app. unfold next_positions at 1.
    pose proof (length_filter (fun p => in_grid self p.1 p.2 /\ cost grid p <> -1 /\
                   cost grid p = cost grid cell + 1)
                  (map (neighbor_pos cell) (seq 0 8))) as Hf.
    rewrite length_map, length_seq in Hf. lia.
  - intros p. rewrite elem_of_concat. split.
    + intros (l & Hp & Hl). apply list_elem_of_fmap in Hl as (cell & -> & Hcell).
      unfold next_positions in Hp. apply list_elem_of_filter in Hp as [(Hin & Hnb & Heq) Hp].
      apply list_elem_of_fmap in Hp as (i & -> & Hi).
      exists cell, i, (cost grid (neighbor_pos cell i)), (cost grid cell).
      split; [done |]. split; [by apply seq_8_range |]. split; [done |].
      split; [done |].
      split; [rewrite (surjective_pairing (neighbor_pos cell i)) at 3;
              by apply (getitem_cost self) |].
      split; [rewrite (surjective_pairing cell) at 3;
              apply (getitem_cost self); [done | by apply Hcells] |].
      done.
    + intros (cell & i & g & c & Hcell & Hi & -> & Hin & Hg & Hc & Hnb & Heq).
      exists (next_positions self grid cell). split.
      * unfold next_positions. apply list_elem_of_filter. split.
        -- rewrite (getitem_cost self grid _ _ Hs Hin) in Hg.
           rewrite (getitem_cost self grid _ _ Hs (Hcells cell Hcell)) in Hc.
           rewrite <- !surjective_pairing in *.
           injection Hg as <-. injection Hc as <-. done.
        -- apply list_elem_of_fmap. exists i. split; [done | by apply seq_8_range].
      * apply list_elem_of_fmap. by exists cell.
Qed.

Lemma incrementWavefront_collects_witness :
  let self := mkMap2D 1 1 400 None None None 3 3 in
  let grid := [[-1; 1; -1]; [1; 0; 1]; [-1; 1; -1]] in
  grid_shape self grid /\
  incrementWavefront self [(1, 1)] grid = Ok [(2, 1); (1, 2); (0, 1); (1, 0)] /\
  exists w,
    incrementWavefront self [(1, 1)] grid = Ok w /\
    (length w <= 8 * length [(1, 1)])%nat /\
    forall p, p ∈ w <->
      exists cell i g c,
        cell ∈ [(1, 1)] /\ (i < 8)%nat /\ p = neighbor_pos cell i /\
        in_grid self p.1 p.2 /\
        np.getitem grid p.1 p.2 = Ok g /\ np.getitem grid cell.1 cell.2 = Ok c /\
        g <> -1 /\ g = c + 1.
Proof.
  intros self grid.
  assert (Hs : grid_shape self grid).
  { unfold np.has_shape. cbn. repeat split; try lia. repeat constructor. }
  split; [exact Hs |]. split; [vm_compute; reflexivity |].
  apply (incrementWavefront_collects self grid [(1, 1)] Hs).
  intros cell Hcell. apply list_elem_of_singleton in Hcell as ->.
  unfold in_grid. cbn. lia.
Defined.

(** ** What findPath returns and records *)

(** X12: [findPath] answers [True] for a walk from a cell to itself and
    for no other walk.  When the centre of the start cell can be read in
    the cost matrix and is not blocked, the call returns [True] exactly
    when the start cell is the end cell, whatever the cost matrix holds
    elsewhere and however deep the recursion may go. *)
Theorem findPath_True_iff_same_cell (depth : nat) (self : Map2D) (xi yi xe ye : Z)
        (cm : np.ndarray) (c : Z) :
  costMatrix self = Some cm ->
  np.getitem cm (2 * xi + 1) (2 * yi + 1) = Ok c -> c <> -1 ->
  (findPath (S depth) self xi yi xe ye).1 = Ok true <-> xi = xe /\ yi = ye.
Proof.
  intros Hcm Hc Hne. split.
  - intros Hres.
    apply (findPath_true_same_cell (S depth) self
             (findPath (S depth) self xi yi xe ye).2).
    rewrite <- Hres. apply surjective_pairing.
  - intros [-> ->]. cbn [findPath].
    rewrite append_path_costMatrix, Hcm. cbn [np.getitem_opt]. rewrite Hc.
    rewrite decide_False by done. by rewrite decide_True.
Qed.

Lemma findPath_True_iff_same_cell_witness :
  let self := set_costMatrix map0 (Some field0) in
  costMatrix self = Some field0 /\
  np.getitem field0 (2 * 0 + 1) (2 * 0 + 1) = Ok 2 /\ 2 <> -1 /\
  ((findPath 1000 self 0 0 1 1).1 = Ok true <-> 0 = 1 /\ 0 = 1) /\
  ((findPath 1000 self 0 0 0 0).1 = Ok true <-> 0 = 0 /\ 0 = 0).
Proof.
  cbv zeta. split; [reflexivity |]. split; [reflexivity |]. split; [lia |].
  split.
  - apply (findPath_True_iff_same_cell 999 (set_costMatrix map0 (Some field0))
             0 0 1 1 field0 2); [reflexivity | reflexivity | lia].
  - apply (findPath_True_iff_same_cell 999 (set_costMatrix map0 (Some field0))
             0 0 0 0 field0 2); [reflexivity | reflexivity | lia].
Defined.

Lemma append_path_frame (self : Map2D) (x y : Z) :
  connectionMatrix (append_path self x y) = connectionMatrix self /\
  sizeX (append_path self x y) = sizeX self /\
  sizeY (append_path self x y) = sizeY self /\
  sizeCell (append_path self x y) = sizeCell self.
Proof. unfold append_path. by destruct (currentPath self). Qed.

Lemma findPath_frame (depth : nat) :
  forall (self : Map2D) (xi yi xe ye : Z),
  exists rest,
    path_entries (findPath depth self xi yi xe ye).2 = path_entries self ++ rest /\
    costMatrix (findPath depth self xi yi xe ye).2 = costMatrix self /\
    connectionMatrix (findPath depth self xi yi xe ye).2 = connectionMatrix self /\
    sizeX (findPath depth self xi yi xe ye).2 = sizeX self /\
    sizeY (findPath depth self xi yi xe ye).2 = sizeY self.
Proof.
  induction depth as [| depth IH]; intros self xi yi xe ye.
  - exists []. cbn. by rewrite app_nil_r.
  - cbn [findPath].
    set (self1 := append_path self (2 * xi + 1) (2 * yi + 1)).
    assert (Hone : exists rest,
      path_entries self1 = path_entries self ++ rest /\
      costMatrix self1 = costMatrix self /\
      connectionMatrix self1 = connectionMatrix self /\
      sizeX self1 = sizeX self /\ sizeY self1 = sizeY self).
    { exists [2 * xi + 1; 2 * yi + 1]. unfold self1.
      rewrite append_path_entries, append_path_costMatrix.
      pose proof (append_path_frame self (2 * xi + 1) (2 * yi + 1)) as (? & ? & ? & ?).
      done. }
    destruct (np.getitem_opt (costMatrix self1) _ _) as [c | e]; [| done].
    case_decide; [done |]. case_decide; [done |].
    destruct (best_step _ _ _) as [[[step |] low] | e]; try done.
    destruct (IH self1 step.1 step.2 (2 * xe + 1) (2 * ye + 1))
      as (rest & Hp & Hcm & Hconn & Hsx & Hsy).
    destruct Hone as (rest1 & Hp1 & Hcm1 & Hconn1 & Hsx1 & Hsy1).
    exists (rest1 ++ rest). rewrite Hp, Hp1, Hcm, Hconn, Hsx, Hsy.
    by rewrite app_assoc.
Qed.

(** X13: [findPath] only ever appends to [currentPath].  Whatever it
    returns or raises, the entries that were recorded before the call
    are still there, in front, followed by the centre of the start cell
    and then whatever the recursive calls recorded; the cost matrix, the
    connection matrix and the sizes are untouched.  So the paths of
    successive calls pile up in one list. *)
Theorem findPath_appends_to_currentPath (depth : nat) (self : Map2D) (xi yi xe ye : Z) :
  let after := (findPath (S depth) self xi yi xe ye).2 in
  (exists rest,
     path_entries after = path_entries self ++ [2 * xi + 1; 2 * yi + 1] ++ rest) /\
  costMatrix after = costMatrix self /\
  connectionMatrix after = connectionMatrix self /\
  sizeX after = sizeX self /\ sizeY after = sizeY self.
Proof.
  cbv zeta. cbn [findPath].
  set (self1 := append_path self (2 * xi + 1) (2 * yi + 1)).
  assert (Hone :
    (exists rest, path_entries self1
                  = path_entries self ++ [2 * xi + 1; 2 * yi + 1] ++ rest) /\
    costMatrix self1 = costMatrix self /\
    connectionMatrix self1 = connectionMatrix self /\
    sizeX self1 = sizeX self /\ sizeY self1 = sizeY self).
  { unfold self1. rewrite append_path_entries, append_path_costMatrix.
    pose proof (append_path_frame self (2 * xi + 1) (2 * yi + 1)) as (? & ? & ? & ?).
    split; [exists []; by rewrite app_nil_r | done]. }
  destruct (np.getitem_opt (costMatrix self1) _ _) as [c | e]; [| done].
  case_decide; [done |]. case_decide; [done |].
  destruct (best_step _ _ _) as [[[step |] low] | e]; try done.
  destruct (findPath_frame depth self1 step.1 step.2 (2 * xe + 1) (2 * ye + 1))
    as (rest & Hp & Hcm & Hconn & Hsx & Hsy).
  destruct Hone as ((rest1 & Hp1) & Hcm1 & Hconn1 & Hsx1 & Hsy1).
  rewrite Hp, Hp1, Hcm, Hconn, Hsx, Hsy. split; [| done].
  exists (rest1 ++ rest). by rewrite <- !app_assoc.
Qed.

(** X14: [False] means that the walk stood on a blocked position.  If
    [findPath] returns [False], the last pair it recorded is a position
    that holds -1 in the cost matrix. *)
Theorem findPath_False_on_blocked (depth : nat) :
  forall (self : Map2D) (xi yi xe ye : Z),
  (findPath depth self xi yi xe ye).1 = Ok false ->
  exists front x y,
    path_entries (findPath depth self xi yi xe ye).2 = front ++ [x; y] /\
    np.getitem_opt (costMatrix self) x y = Ok (-1).
Proof.
  induction depth as [| depth IH]; intros self xi yi xe ye; [done |].
  cbn [findPath].
  set (self1 := append_path self (2 * xi + 1) (2 * yi + 1)).
  assert (Hcm1 : costMatrix self1 = costMatrix self) by apply append_path_costMatrix.
  destruct (np.getitem_opt (costMatrix self1) _ _) as [c | e] eqn:Hc; [| done].
  case_decide as Hblocked.
  - intros _. exists (path_entries self), (2 * xi + 1), (2 * yi + 1).
    cbn [snd]. split; [apply append_path_entries |]. by rewrite <- Hcm1, Hc, Hblocked.
  - case_decide; [done |].
    destruct (best_step _ _ _) as [[[step |] low] | e]; try done.
    intros Hres. apply IH in Hres as (front & x & y & Hp & Hxy).
    exists front, x, y. split; [done |]. by rewrite <- Hcm1.
Qed.

Lemma findPath_False_on_blocked_witness :
  let self := set_costMatrix map_wall (Some field_wall) in
  (findPath 1000 self 2 0 0 0).1 = Ok false /\
  exists front x y,
    path_entries (findPath 1000 self 2 0 0 0).2 = front ++ [x; y] /\
    np.getitem_opt (costMatrix self) x y = Ok (-1).
Proof.
  cbv zeta.
  assert (H : (findPath 1000 (set_costMatrix map_wall (Some field_wall)) 2 0 0 0).1
              = Ok false) by (vm_compute; reflexivity).
  split; [exact H |].
  exact (findPath_False_on_blocked 1000 _ 2 0 0 0 H).
Defined.

(** ** Counting the entries of a matrix *)

Lemma foldM_app {A B : Type} (f : A -> B -> result A) (l1 l2 : list B) (a : A) :
  foldM f a (l1 ++ l2) = (a' ← foldM f a l1; foldM f a' l2).
Proof.
  revert a. induction l1 as [| b l1 IH]; intros a; cbn [foldM app]; [done |].
  destruct (f a b) as [a1 | e]; cbn; [apply IH | done].
Qed.

Lemma count_eq_app (k : Z) (a b : np.ndarray) :
  count_eq k (a ++ b) = count_eq k a + count_eq k b.
Proof.
  unfold count_eq. rewrite concat_app, list.filter_app, length_app. lia.
Qed.

Lemma count_eq_row (k : Z) (row : list Z) :
  count_eq k [row] = Z.of_nat (length (filter (fun v => v = k) row)).
Proof. unfold count_eq. cbn [concat]. by rewrite app_nil_r. Qed.

Lemma count_eq_cons (k : Z) (row : list Z) (a : np.ndarray) :
  count_eq k (row :: a)
  = Z.of_nat (length (filter (fun v => v = k) row)) + count_eq k a.
Proof.
  unfold count_eq. cbn [concat]. rewrite list.filter_app, length_app. lia.
Qed.

Lemma count_eq_bounds (nx ny k : Z) (a : np.ndarray) :
  np.has_shape nx ny a -> 0 <= count_eq k a <= nx * ny.
Proof.
  intros (Hnx & Hny & Hlen & Hrows). unfold count_eq. split; [lia |].
  pose proof (length_filter (fun v => v = k) (concat a)) as Hf.
  enough (Z.of_nat (length (concat a)) = nx * ny) by lia.
  subst nx. clear Hnx Hf. induction a as [| row a IH]; cbn [concat length]; [lia |].
  apply Forall_cons_iff in Hrows as [Hrow Hrows].
  rewrite length_app, Nat2Z.inj_add, (IH Hrows). lia.
Qed.

Lemma filter_insert_length (k : Z) (row : list Z) (j : nat) (v old : Z) :
  row !! j = Some old ->
  Z.of_nat (length (filter (fun w => w = k) (<[j := v]> row)))
  + (if decide (old = k) then 1 else 0)
  = Z.of_nat (length (filter (fun w => w = k) row))
    + (if decide (v = k) then 1 else 0).
Proof.
  intros Hw. rewrite insert_take_drop by (by apply lookup_lt_Some in Hw).
  pose proof (take_drop_middle row j old Hw) as E.
  remember (take j row) as t. remember (drop (S j) row) as d.
  rewrite <- E. rewrite !list.filter_app, !length_app, !filter_cons.
  repeat case_decide; cbn [length]; lia.
Qed.

(** Writing one entry changes the count of [k] by what left and what
    came. *)
Lemma count_eq_setitem (k : Z) (a a' : np.ndarray) (x y v old : Z) :
  np.setitem a x y v = Ok a' -> np.getitem a x y = Ok old ->
  count_eq k a' + (if decide (old = k) then 1 else 0)
  = count_eq k a + (if decide (v = k) then 1 else 0).
Proof.
  unfold np.setitem, np.getitem.
  destruct (np.index (length a) x) as [i | e] eqn:Hi; cbn; [| done].
  destruct (a !! i) as [row |] eqn:Hrow; [| done].
  destruct (np.index (length row) y) as [j | e] eqn:Hj; cbn; [| done].
  destruct (row !! j) as [w |] eqn:Hw; [| done].
  intros [= <-] [= ->].
  rewrite insert_take_drop by (by apply lookup_lt_Some in Hrow).
  pose proof (take_drop_middle a i row Hrow) as E.
  pose proof (filter_insert_length k row j v old Hw) as Hf.
  remember (take i a) as t. remember (drop (S i) a) as d.
  rewrite <- E. rewrite !count_eq_app, !count_eq_cons. lia.
Qed.

Lemma count_cell_fold (self : Map2D) (c : np.ndarray) (i : nat) (row : list Z) :
  connectionMatrix self = Some c ->
  grid_shape self c -> c !! i = Some row ->
  forall (k : nat) (n : Z), (k <= length row)%nat ->
  foldM (count_cell self (Z.of_nat i)) n (seqZ 0 (Z.of_nat k))
  = Ok (n + count_eq 1 [take k row]).
Proof.
  intros Hc Hs Hrow. pose proof (shape_row _ _ _ Hs _ _ Hrow) as Hlen.
  assert (Hi : (i < length c)%nat) by (by apply lookup_lt_Some in Hrow).
  pose proof Hs as (_ & _ & Hlenc & _).
  induction k as [| k IH]; intros n Hk.
  - replace (seqZ 0 (Z.of_nat 0)) with (@nil Z) by reflexivity.
    cbn [foldM]. rewrite count_eq_row, take_0, filter_nil. cbn. f_equal. lia.
  - rewrite seqZ_S, foldM_app, IH by lia. cbn [mbind result_bind foldM].
    unfold count_cell at 1. rewrite Hc. cbn [np.getitem_opt].
    rewrite (getitem_inrange _ _ _ Hs) by lia. cbn [mbind result_bind].
    rewrite !Nat2Z.id, Hrow. cbn [mbind option_bind].
    destruct (lookup_lt_is_Some_2 row k) as [v Hv]; [lia |].
    rewrite Z.add_0_l, Nat2Z.id, Hv. cbn [default]. rewrite (take_S_r row k v Hv).
    rewrite !count_eq_row, list.filter_app, length_app, filter_cons, filter_nil.
    unfold id. destruct (decide (v = 1)); cbn; f_equal; lia.
Qed.

Lemma count_rows_fold (self : Map2D) (c : np.ndarray) :
  connectionMatrix self = Some c -> grid_shape self c ->
  forall (k : nat), (k <= length c)%nat ->
  foldM (fun n i => foldM (count_cell self i) n (range (2 * sizeY self + 1)))
        0 (seqZ 0 (Z.of_nat k))
  = Ok (count_eq 1 (take k c)).
Proof.
  intros Hc Hs. induction k as [| k IH]; intros Hk; [done |].
  rewrite seqZ_S, foldM_app, IH by lia. cbn [mbind result_bind foldM].
  destruct (lookup_lt_is_Some_2 c k) as [row Hrow]; [lia |].
  pose proof (shape_row _ _ _ Hs _ _ Hrow) as Hlen.
  unfold range. rewrite <- Hlen, Z.add_0_l.
  rewrite (count_cell_fold self c k row Hc Hs Hrow (length row)) by lia.
  cbn [mbind result_bind]. rewrite (take_ge row) by lia.
  by rewrite (take_S_r c k row Hrow), count_eq_app.
Qed.

Lemma getNumberObstacles_count (self : Map2D) (c : np.ndarray) :
  connectionMatrix self = Some c -> grid_shape self c ->
  getNumberObstacles self = Ok (count_eq 1 c).
Proof.
  intros Hc Hs. unfold getNumberObstacles.
  change (range (2 * sizeX self + 1)) with (seqZ 0 (2 * sizeX self + 1)).
  pose proof Hs as (_ & _ & Hlen & _). rewrite <- Hlen.
  rewrite (count_rows_fold self c Hc Hs (length c)) by lia.
  by rewrite take_ge.
Qed.

(** X15: [getNumberObstacles] counts the open positions.  On a loaded
    map it ends without exception and returns the number of entries of
    the connection matrix that hold 1, a number between 0 and
    (2 sizeX + 1)(2 sizeY + 1); entries that hold 0, the closed ones,
    are not counted. *)
Theorem getNumberObstacles_counts_open (self : Map2D) :
  loaded self ->
  exists c, connectionMatrix self = Some c /\
    getNumberObstacles self = Ok (count_eq 1 c) /\
    0 <= count_eq 1 c <= (2 * sizeX self + 1) * (2 * sizeY self + 1).
Proof.
  intros (Hsx & Hsy & c & Hc & Hs). exists c. split; [done |].
  split; [by apply getNumberObstacles_count |].
  by apply (count_eq_bounds _ _ 1 c).
Qed.

Lemma getNumberObstacles_counts_open_witness :
  loaded map0 /\ getNumberObstacles map0 = Ok 25 /\
  exists c, connectionMatrix map0 = Some c /\
    getNumberObstacles map0 = Ok (count_eq 1 c) /\
    0 <= count_eq 1 c <= (2 * sizeX map0 + 1) * (2 * sizeY map0 + 1).
Proof.
  split; [exact map0_loaded |]. split; [vm_compute; reflexivity |].
  exact (getNumberObstacles_counts_open map0 map0_loaded).
Defined.

(** X16: opening and closing move the count by one.  On a loaded map,
    for a cell of the map and a direction in 0..7: after [setConnection]
    the number returned by [getNumberObstacles] is one more than before
    if the connection did not hold 1, and the same if it did; after
    [deleteConnection] it is one less if the connection held 1, and the
    same if it did not. *)
Theorem getNumberObstacles_after_write (self : Map2D) (x y d old n : Z) :
  loaded self -> 0 <= x < sizeX self -> 0 <= y < sizeY self -> 0 <= d < 8 ->
  isConnected self x y d = Ok old ->
  getNumberObstacles self = Ok n ->
  (exists self', setConnection self x y d = Ok self' /\
     getNumberObstacles self' = Ok (if decide (old = 1) then n else n + 1)) /\
  (exists self', deleteConnection self x y d = Ok self' /\
     getNumberObstacles self' = Ok (if decide (old = 1) then n - 1 else n)).
Proof.
  intros Hl Hx Hy Hd Hold Hn.
  destruct (_cell2connCoord_inrange _ _ x y d Hx Hy Hd) as (cx & cy & Hconn & Hcx & Hcy).
  pose proof Hl as (Hsx & Hsy & c & Hc & Hs).
  rewrite (getNumberObstacles_count self c Hc Hs) in Hn. injection Hn as <-.
  unfold isConnected in Hold. rewrite Hconn, Hc in Hold. cbn in Hold.
  assert (Hwrite : forall v, exists self',
    write_connection self x y d v = Ok self' /\
    getNumberObstacles self' = Ok (count_eq 1 c + (if decide (v = 1) then 1 else 0)
                                   - (if decide (old = 1) then 1 else 0))).
  { intros v. destruct (setitem_inrange _ _ _ Hs cx cy v Hcx Hcy) as [c' Hset].
    exists (set_connectionMatrix self c'). unfold write_connection.
    rewrite Hconn, Hc. cbn. rewrite Hset. cbn. split; [done |].
    rewrite (getNumberObstacles_count (set_connectionMatrix self c') c' eq_refl)
      by exact (setitem_shape _ _ _ Hs _ _ _ _ Hset).
    f_equal. pose proof (count_eq_setitem 1 c c' cx cy v old Hset Hold). lia. }
  split.
  - destruct (Hwrite 1) as (self' & Hw & Hcount). exists self'.
    split; [exact Hw |]. rewrite Hcount. f_equal. repeat case_decide; lia.
  - destruct (Hwrite 0) as (self' & Hw & Hcount). exists self'.
    split; [exact Hw |]. rewrite Hcount. f_equal. repeat case_decide; lia.
Qed.

Lemma getNumberObstacles_after_write_witness :
  loaded map0 /\ isConnected map0 0 0 4 = Ok 0 /\ isConnected map0 0 0 0 = Ok 1 /\
  getNumberObstacles map0 = Ok 25 /\
  (exists self', setConnection map0 0 0 4 = Ok self' /\
     getNumberObstacles self' = Ok 26) /\
  (exists self', deleteConnection map0 0 0 0 = Ok self' /\
     getNumberObstacles self' = Ok 24).
Proof.
  split; [exact map0_loaded |]. split; [reflexivity |]. split; [reflexivity |].
  split; [vm_compute; reflexivity |]. split.
  - apply (getNumberObstacles_after_write map0 0 0 4 0 25);
      [exact map0_loaded | cbn; lia | cbn; lia | lia | reflexivity
      | vm_compute; reflexivity].
  - apply (getNumberObstacles_after_write map0 0 0 0 1 25);
      [exact map0_loaded | cbn; lia | cbn; lia | lia | reflexivity
      | vm_compute; reflexivity].
Defined.

(** ** The loop of fillCostMatrix *)

Lemma cost_setitem (self : Map2D) (grid grid' : np.ndarray) (p : Z * Z) (v : Z) :
  grid_shape self grid -> in_grid self p.1 p.2 ->
  np.setitem grid p.1 p.2 v = Ok grid' ->
  forall q, in_grid self q.1 q.2 ->
    cost grid' q = if decide (q = p) then v else cost grid q.
Proof.
  intros Hs Hp Hset q Hq.
  pose proof (setitem_shape _ _ _ Hs _ _ _ _ Hset) as Hs'.
  pose proof (getitem_cost self grid' _ _ Hs' Hq) as Hget'.
  pose proof (getitem_cost self grid _ _ Hs Hq) as Hget.
  destruct Hp as [Hp1 Hp2]. pose proof Hq as [Hq1 Hq2].
  rewrite (getitem_setitem _ _ _ Hs p.1 p.2 v grid' q.1 q.2) in Hget' by done.
  rewrite <- !surjective_pairing in *.
  destruct (decide (q = p)) as [-> | Hne].
  - rewrite decide_True in Hget' by done. by injection Hget'.
  - rewrite decide_False in Hget'.
    + rewrite Hget in Hget'. by injection Hget'.
    + intros [H1 H2]. apply Hne. destruct q, p. cbn in *. congruence.
Qed.

Lemma adjacent_sym (self : Map2D) (p q : Z * Z) :
  in_grid self p.1 p.2 -> adjacent self p q -> adjacent self q p.
Proof.
  intros Hp [(i & Hi & ->) Hq]. split; [| done].
  exists ((i + 4) mod 8)%nat. split; [apply Nat.mod_upper_bound; lia |].
  destruct p as [px py]. unfold neighbor_pos. cbn [fst snd].
  do 8 (destruct i as [| i]; [cbn; f_equal; lia |]). lia.
Qed.

Section Wavefront.

Context (self : Map2D) (goal : Z * Z) (closed : Z * Z -> Prop).

(** One visit keeps the invariant and takes one unvisited position
    away. *)
Lemma visit_inv (r : Z) (W : list (Z * Z)) (grid grid' : np.ndarray) (w p : Z * Z) :
  wave_inv self goal closed r W grid ->
  w ∈ W -> adjacent self w p -> cost grid p = -2 ->
  np.setitem grid p.1 p.2 (r + 1) = Ok grid' ->
  wave_inv self goal closed r W grid' /\
  count_eq (-2) grid' = count_eq (-2) grid - 1 /\
  only_visits self r grid grid' /\
  cost grid' p = r + 1.
Proof.
  intros Hinv Hw Hadj Hp Hset. pose proof Hadj as [_ Hpin].
  destruct Hinv as [Hs Hr [Hgin Hg] Hval Hcl Hzero Hdesc Hdone Hfront Hnew].
  pose proof (cost_setitem self grid grid' p (r + 1) Hs Hpin Hset) as Hcost.
  pose proof (setitem_shape _ _ _ Hs _ _ _ _ Hset) as Hs'.
  destruct (Hfront w Hw) as [Hwin Hwr].
  assert (Hkeep : forall q, in_grid self q.1 q.2 -> cost grid q <> -2 ->
                            cost grid' q = cost grid q).
  { intros q Hq Hne. rewrite (Hcost q Hq). rewrite decide_False; [done |].
    intros ->. done. }
  assert (Hnewp : cost grid' p = r + 1).
  { rewrite (Hcost p Hpin). by rewrite decide_True. }
  split; [| split; [| split]]; [| | | exact Hnewp].
  - split.
    + exact Hs'.
    + exact Hr.
    + split; [done |]. rewrite Hkeep; [done | done | lia].
    + intros q Hq. rewrite (Hcost q Hq). case_decide; [lia | by apply Hval].
    + intros q Hq. rewrite (Hcost q Hq). case_decide as E; [| by apply Hcl].
      subst q. rewrite <- (Hcl p Hpin). lia.
    + intros q Hq. rewrite (Hcost q Hq). case_decide; [lia | by apply Hzero].
    + intros q Hq. rewrite (Hcost q Hq). case_decide as E.
      * subst q. intros _. exists w. split; [by apply adjacent_sym |].
        rewrite Hkeep; [lia | done | lia].
      * intros Hge. destruct (Hdesc q Hq Hge) as (q' & Hadj' & Hq').
        exists q'. split; [done |]. pose proof Hadj' as [_ Hq'in].
        rewrite Hkeep; [done | done | lia].
    + intros q q' Hq. rewrite (Hcost q Hq). case_decide as E; [lia |].
      intros Hlt Hadj'. pose proof Hadj' as [_ Hq'in].
      pose proof (Hdone q q' Hq Hlt Hadj') as [Hne Hle].
      by rewrite Hkeep.
    + intros w' Hw'. destruct (Hfront w' Hw') as [Hin' Hr'].
      split; [done |]. rewrite Hkeep; [done | done | lia].
    + intros q Hq. rewrite (Hcost q Hq). case_decide as E.
      * subst q. intros _. by exists w.
      * by apply Hnew.
  - pose proof (count_eq_setitem (-2) grid grid' p.1 p.2 (r + 1) (-2) Hset) as Hcount.
    rewrite (getitem_cost self grid _ _ Hs Hpin), <- surjective_pairing, Hp in Hcount.
    specialize (Hcount eq_refl).
    rewrite decide_True in Hcount by done. rewrite decide_False in Hcount by lia. lia.
  - intros q Hq. rewrite (Hcost q Hq). case_decide as E; [| by left].
    subst q. by right.
Qed.

(** One turn of the loop of [propagateWavefront], from a cell of the
    wavefront. *)
Lemma propagate_neighbor_inv (r : Z) (W : list (Z * Z)) (grid : np.ndarray)
      (n : Z) (w : Z * Z) (i : nat) :
  wave_inv self goal closed r W grid -> w ∈ W -> (i < 8)%nat ->
  exists grid' n',
    propagate_neighbor self w (grid, n) i = Ok (grid', n') /\
    wave_inv self goal closed r W grid' /\
    only_visits self r grid grid' /\
    count_eq (-2) grid' + n' = count_eq (-2) grid + n /\
    n <= n' /\ (n' = n -> grid' = grid) /\
    (in_grid self (neighbor_pos w i).1 (neighbor_pos w i).2 ->
     cost grid' (neighbor_pos w i) <> -2).
Proof.
  intros Hinv Hw Hi. pose proof Hinv as [Hs Hr _ Hval _ _ _ _ Hfront _].
  destruct (Hfront w Hw) as [Hwin Hwr].
  unfold propagate_neighbor.
  change (w.1 + neighbor0 i) with (neighbor_pos w i).1.
  change (w.2 + neighbor1 i) with (neighbor_pos w i).2.
  set (p := neighbor_pos w i).
  assert (Hsame : exists grid' n',
    Ok (A := np.ndarray * Z) (grid, n) = Ok (grid', n') /\
    wave_inv self goal closed r W grid' /\ only_visits self r grid grid' /\
    count_eq (-2) grid' + n' = count_eq (-2) grid + n /\
    n <= n' /\ (n' = n -> grid' = grid)).
  { exists grid, n. split_and!; try done; try lia. intros q Hq. by left. }
  case_decide as Hpin.
  - rewrite (getitem_cost self grid _ _ Hs Hpin), <- surjective_pairing. cbn.
    rewrite (getitem_cost self grid _ _ Hs Hwin), <- surjective_pairing, Hwr.
    case_decide as Hp2.
    + cbn. destruct (setitem_inrange _ _ _ Hs p.1 p.2 (r + 1)) as [grid' Hset];
        [apply Hpin | apply Hpin |].
      rewrite Hset. cbn.
      destruct (visit_inv r W grid grid' w p Hinv Hw) as (Hinv' & Hcount & Hvis & Hp');
        [split; [by exists i | done] | done | done |].
      exists grid', (n + 1). split_and!; try done; try lia.
    + cbn. rewrite decide_False.
      * destruct Hsame as (grid' & n' & Heq & Hinv' & Hvis & Hcount & Hle & Hid).
        exists grid', n'. injection Heq as <- <-. split_and!; try done.
      * destruct (Hval p Hpin) as [H1 | [H2 | H3]]; lia.
  - destruct Hsame as (grid' & n' & Heq & Hinv' & Hvis & Hcount & Hle & Hid).
    exists grid', n'. split_and!; try done.
Qed.

Lemma bind_Ok {A B : Type} (a : A) (f : A -> result B) : (Ok a ≫= f) = f a.
Proof. reflexivity. Qed.

Lemma only_visits_trans (r : Z) (g1 g2 g3 : np.ndarray) :
  only_visits self r g1 g2 -> only_visits self r g2 g3 -> only_visits self r g1 g3.
Proof.
  intros H12 H23 q Hq. destruct (H12 q Hq) as [E1 | [E1 E1']], (H23 q Hq) as [E2 | [E2 E2']].
  - left. congruence.
  - right. split; congruence.
  - right. split; congruence.
  - right. split; congruence.
Qed.

Lemma only_visits_keeps (r : Z) (g1 g2 : np.ndarray) (q : Z * Z) :
  only_visits self r g1 g2 -> in_grid self q.1 q.2 ->
  cost g1 q <> -2 -> cost g2 q = cost g1 q.
Proof. intros H Hq Hne. destruct (H q Hq) as [E | [E _]]; [done | lia]. Qed.

(** The turns of one call, for a list of directions. *)
Lemma propagate_fold_inv (r : Z) (W : list (Z * Z)) (w : Z * Z) (l : list nat) :
  w ∈ W -> (forall i, i ∈ l -> (i < 8)%nat) ->
  forall (grid : np.ndarray) (n : Z),
  wave_inv self goal closed r W grid ->
  exists grid' n',
    foldM (propagate_neighbor self w) (grid, n) l = Ok (grid', n') /\
    wave_inv self goal closed r W grid' /\
    only_visits self r grid grid' /\
    count_eq (-2) grid' + n' = count_eq (-2) grid + n /\
    n <= n' /\ (n' = n -> grid' = grid) /\
    (forall i, i ∈ l -> in_grid self (neighbor_pos w i).1 (neighbor_pos w i).2 ->
     cost grid' (neighbor_pos w i) <> -2).
Proof.
  intros Hw. induction l as [| i l IH]; intros Hl grid n Hinv.
  - exists grid, n. cbn. split_and!; try done; try lia.
    + intros q Hq. by left.
    + intros i Hi. by apply not_elem_of_nil in Hi.
  - destruct (propagate_neighbor_inv r W grid n w i Hinv Hw)
      as (g1 & n1 & Hstep & Hinv1 & Hvis1 & Hc1 & Hle1 & Hid1 & Hp1);
      [apply Hl; by left |].
    destruct (IH (fun j Hj => Hl j (list_elem_of_further _ _ _ Hj)) g1 n1 Hinv1)
      as (g2 & n2 & Hfold & Hinv2 & Hvis2 & Hc2 & Hle2 & Hid2 & Hp2).
    exists g2, n2. cbn [foldM]. rewrite Hstep. cbn. rewrite Hfold.
    split; [done |]. split; [done |].
    split; [by apply (only_visits_trans r grid g1 g2) |].
    split; [lia |]. split; [lia |]. split.
    + intros E. assert (n1 = n) as -> by lia. rewrite Hid2 by lia. by apply Hid1.
    + intros j Hj Hin. apply elem_of_cons in Hj as [-> | Hj]; [| by apply Hp2].
      rewrite (only_visits_keeps r g1 g2); [by apply Hp1 | done | done | by apply Hp1].
Qed.

Lemma propagateWavefront_inv (r : Z) (W : list (Z * Z)) (w : Z * Z) (grid : np.ndarray) :
  w ∈ W -> wave_inv self goal closed r W grid ->
  exists grid' n',
    propagateWavefront self grid w = Ok (grid', n') /\
    wave_inv self goal closed r W grid' /\
    only_visits self r grid grid' /\
    count_eq (-2) grid' + n' = count_eq (-2) grid /\
    0 <= n' /\ (n' = 0 -> grid' = grid) /\
    (forall q, adjacent self w q -> cost grid' q <> -2).
Proof.
  intros Hw Hinv.
  destruct (propagate_fold_inv r W w (seq 0 8) Hw
              (fun i Hi => proj1 (seq_8_range i) Hi) grid 0 Hinv)
    as (g' & n' & Hfold & Hinv' & Hvis & Hc & Hle & Hid & Hp).
  exists g', n'. split_and!; try done; try lia.
  intros q [(i & Hi & ->) Hq]. apply Hp; [by apply seq_8_range | done].
Qed.

(** The calls of one round, for a list of cells of the wavefront. *)
Lemma round_fold_inv (r : Z) (W : list (Z * Z)) (ws : list (Z * Z)) :
  (forall w, w ∈ ws -> w ∈ W) ->
  forall (grid : np.ndarray) (n : Z),
  wave_inv self goal closed r W grid ->
  exists grid' n',
    foldM (fun st cell =>
             '(g, k) ← propagateWavefront self st.1 cell;
             Ok (g, st.2 + k))
          (grid, n) ws = Ok (grid', n') /\
    wave_inv self goal closed r W grid' /\
    only_visits self r grid grid' /\
    count_eq (-2) grid' + n' = count_eq (-2) grid + n /\
    n <= n' /\ (n' = n -> grid' = grid) /\
    (forall w q, w ∈ ws -> adjacent self w q -> cost grid' q <> -2).
Proof.
  induction ws as [| w ws IH]; intros Hws grid n Hinv.
  - exists grid, n. cbn. split_and!; try done; try lia.
    + intros q Hq. by left.
    + intros w q Hw. by apply not_elem_of_nil in Hw.
  - destruct (propagateWavefront_inv r W w grid) as
      (g1 & k & Hcall & Hinv1 & Hvis1 & Hc1 & Hle1 & Hid1 & Hp1);
      [apply Hws; by left | done |].
    destruct (IH (fun j Hj => Hws j (list_elem_of_further _ _ _ Hj)) g1 (n + k) Hinv1)
      as (g2 & n2 & Hfold & Hinv2 & Hvis2 & Hc2 & Hle2 & Hid2 & Hp2).
    exists g2, n2. cbn [foldM fst snd]. rewrite Hcall, !bind_Ok, Hfold.
    split; [done |]. split; [done |].
    split; [by apply (only_visits_trans r grid g1 g2) |].
    split; [lia |]. split; [lia |]. split.
    + intros E. assert (k = 0) as -> by lia. rewrite Hid2 by lia. by apply Hid1.
    + intros w' q Hw' Hadj. apply elem_of_cons in Hw' as [-> | Hw'];
        [| by apply (Hp2 w')].
      pose proof Hadj as [_ Hq].
      rewrite (only_visits_keeps r g1 g2); [by apply Hp1 | done | done | by apply Hp1].
Qed.

End Wavefront.

Section WavefrontLoop.

Context (self : Map2D) (goal : Z * Z) (closed : Z * Z -> Prop).

(** One round of the loop. *)
Lemma wavefront_round_inv (r : Z) (W : list (Z * Z)) (grid : np.ndarray) :
  round_start self goal closed r W grid ->
  exists grid' n W',
    wavefront_round self grid W = Ok (grid', n, W') /\
    0 <= n /\ count_eq (-2) grid' + n = count_eq (-2) grid /\
    round_start self goal closed (r + 1) W' grid' /\
    (n = 0 -> grid' = grid /\ W' = [] /\
              forall w q, w ∈ W -> adjacent self w q -> cost grid q <> -2).
Proof.
  intros [Hinv Hvals Hfull].
  destruct (round_fold_inv self goal closed r W W (fun w H => H) grid 0 Hinv)
    as (g' & n & Hfold & Hinv' & Hvis & Hc & Hle & Hid & Hp).
  pose proof Hinv' as [Hs' Hr' Hgoal' Hval' Hcl' Hzero' Hdesc' Hdone' Hfront' Hnew'].
  assert (HW : incrementWavefront self W g'
               = Ok (concat (map (next_positions self g') W))).
  { apply incrementWavefront_spec; [done |]. intros w Hw. by apply Hfront'. }
  assert (Hmem : forall p, p ∈ concat (map (next_positions self g') W) <->
            exists w, w ∈ W /\ adjacent self w p /\ cost g' p <> -1 /\
                      cost g' p = r + 1).
  { intros p. rewrite elem_of_concat. split.
    - intros (l & Hpl & Hl). apply list_elem_of_fmap in Hl as (w & -> & Hw).
      unfold next_positions in Hpl.
      apply list_elem_of_filter in Hpl as [(Hin & Hnb & Heq) Hpm].
      apply list_elem_of_fmap in Hpm as (i & -> & Hi).
      destruct (Hfront' w Hw) as [_ Hwr]. exists w. split; [done |].
      split; [split; [exists i; split; [by apply seq_8_range | done] | done] |].
      split; [done | lia].
    - intros (w & Hw & [(i & Hi & ->) Hin] & Hnb & Heq).
      destruct (Hfront' w Hw) as [_ Hwr].
      exists (next_positions self g' w). split.
      + unfold next_positions. apply list_elem_of_filter.
        split; [split_and!; [done | done | lia] |].
        apply list_elem_of_fmap. exists i. split; [done | by apply seq_8_range].
      + apply list_elem_of_fmap. by exists w. }
  exists g', n, (concat (map (next_positions self g') W)).
  unfold wavefront_round. rewrite Hfold, bind_Ok. cbn beta iota.
  rewrite HW, bind_Ok. split; [done |]. split; [lia |]. split; [lia |]. split.
  - split; [split | |].
    + exact Hs'.
    + lia.
    + exact Hgoal'.
    + intros p Hp'. destruct (Hval' p Hp') as [H1 | [H2 | H3]]; lia.
    + exact Hcl'.
    + exact Hzero'.
    + exact Hdesc'.
    + intros p q Hpin Hlt Hadj.
      destruct (decide (cost g' p < r)) as [Hlow | Hr];
        [apply Hdone'; [done | lia | done] |].
      assert (Hpr : cost g' p = r) by lia.
      assert (Hold : cost grid p = r).
      { destruct (Hvis p Hpin) as [E | [_ E]]; lia. }
      pose proof Hadj as [_ Hqin]. split; [apply (Hp p q); [by apply Hfull | done] |].
      destruct (Hval' q Hqin) as [H1 | [H2 | H3]]; lia.
    + intros w Hw. apply Hmem in Hw as (w0 & Hw0 & [_ Hin] & _ & Heq). done.
    + intros p Hpin Heq. destruct (Hval' p Hpin) as [H1 | [H2 | H3]]; lia.
    + intros p Hpin. destruct (Hval' p Hpin) as [H1 | [H2 | H3]]; lia.
    + intros p Hpin Heq. apply Hmem. destruct (Hnew' p Hpin Heq) as (w & Hw & Hadj).
      exists w. split_and!; [done | done | lia | done].
  - intros ->. rewrite <- (Hid eq_refl) in *. split; [done |]. split.
    + apply elem_of_nil_inv. intros p Hpm.
      apply Hmem in Hpm as (w & _ & [_ Hin] & _ & Heq).
      specialize (Hvals p Hin). lia.
    + intros w q Hw Hadj. by apply (Hp w q).
Qed.

(** The loop ends, after at most as many rounds as there are unvisited
    positions, plus one. *)
Lemma wavefront_loop_ends (B : Z) (rounds : nat) :
  forall (r : Z) (W : list (Z * Z)) (grid : np.ndarray),
  round_start self goal closed r W grid ->
  count_eq (-2) grid < Z.of_nat rounds ->
  r + count_eq (-2) grid <= B ->
  exists grid',
    wavefront_loop rounds self grid W = Some (Ok (grid', [])) /\
    field_ok self goal closed grid' /\
    forall p, in_grid self p.1 p.2 -> cost grid' p <= B.
Proof.
  induction rounds as [| rounds IH]; intros r W grid Hstart Hfuel HB.
  - pose proof (rs_inv _ _ _ _ _ _ Hstart) as Hinv.
    pose proof (count_eq_bounds _ _ (-2) grid (wi_shape _ _ _ _ _ _ Hinv)). lia.
  - destruct (wavefront_round_inv r W grid Hstart)
      as (g' & n & W' & Hround & Hn & Hcount & Hstart' & Hexit).
    cbn [wavefront_loop]. rewrite Hround. case_decide as Hzero.
    + destruct (Hexit Hzero) as (-> & -> & Hclosure).
      exists grid. split; [done |].
      destruct Hstart as [[Hs Hr Hgoal Hval Hcl Hz Hdesc Hdone Hfront Hnew] Hvals Hfull].
      pose proof (count_eq_bounds _ _ (-2) grid Hs) as Hcb.
      split; [split |]; try done.
      * intros p Hp. destruct (Hval p Hp) as [H1 | [H2 | H3]]; lia.
      * intros p q Hp Hge Hadj. pose proof Hadj as [_ Hq].
        destruct (decide (cost grid p < r)) as [Hlow | Hhigh];
          [apply Hdone; [done | lia | done] |].
        pose proof (Hvals p Hp) as Hvp. assert (Hpr : cost grid p = r) by lia.
        split; [apply (Hclosure p q); [by apply Hfull | done] |].
        pose proof (Hvals q Hq) as Hvq. lia.
      * intros p Hp. specialize (Hvals p Hp). lia.
    + apply (IH (r + 1) W' g' Hstart'); lia.
Qed.

End WavefrontLoop.

(** *** The grid at the start of the loop *)

Lemma foldM_seqZ_inv {A : Type} (P : Z -> A -> Prop) (f : A -> Z -> result A)
      (n : nat) (a : A) :
  P 0 a ->
  (forall k a, 0 <= k < Z.of_nat n -> P k a -> exists a', f a k = Ok a' /\ P (k + 1) a') ->
  exists a', foldM f a (seqZ 0 (Z.of_nat n)) = Ok a' /\ P (Z.of_nat n) a'.
Proof.
  intros H0. induction n as [| n IH]; intros Hstep.
  - exists a. split; [reflexivity | done].
  - destruct IH as (a1 & Hfold & Ha1); [intros k a2 Hk; apply Hstep; lia |].
    destruct (Hstep (Z.of_nat n) a1) as (a2 & Hf & Ha2); [lia | done |].
    exists a2. rewrite seqZ_S, foldM_app, Hfold, bind_Ok. cbn [foldM].
    rewrite Z.add_0_l, Hf, bind_Ok. split; [done |].
    by replace (Z.of_nat (S n)) with (Z.of_nat n + 1) by lia.
Qed.

Lemma cost_full (self : Map2D) (v : Z) (p : Z * Z) :
  in_grid self p.1 p.2 ->
  cost (np.full (2 * sizeX self + 1) (2 * sizeY self + 1) v) p = v.
Proof.
  intros [Hx Hy]. unfold cost, np.full.
  rewrite lookup_replicate_2 by lia. cbn.
  by rewrite lookup_replicate_2 by lia.
Qed.

Lemma init_grid_values (self : Map2D) (c : np.ndarray) :
  0 <= sizeX self -> 0 <= sizeY self ->
  connectionMatrix self = Some c -> grid_shape self c ->
  exists grid,
    init_grid self (2 * sizeX self + 1) (2 * sizeY self + 1) = Ok grid /\
    grid_shape self grid /\
    forall p, in_grid self p.1 p.2 -> cost grid p = init_value c p.
Proof.
  intros Hsx Hsy Hc Hs. unfold init_grid, range. rewrite decide_False by lia.
  set (P := fun (i : Z) (g : np.ndarray) =>
    grid_shape self g /\
    forall p, in_grid self p.1 p.2 ->
      cost g p = if decide (p.1 < i) then init_value c p else -2).
  set (Q := fun (i j : Z) (g : np.ndarray) =>
    grid_shape self g /\
    forall p, in_grid self p.1 p.2 ->
      cost g p = if decide (p.1 < i \/ (p.1 = i /\ p.2 < j))
                 then init_value c p else -2).
  replace (seqZ 0 (2 * sizeX self + 1))
    with (seqZ 0 (Z.of_nat (Z.to_nat (2 * sizeX self + 1)))) by (f_equal; lia).
  replace (seqZ 0 (2 * sizeY self + 1))
    with (seqZ 0 (Z.of_nat (Z.to_nat (2 * sizeY self + 1)))) by (f_equal; lia).
  destruct (foldM_seqZ_inv P
              (fun grid i => foldM (init_cell self i) grid
                               (seqZ 0 (Z.of_nat (Z.to_nat (2 * sizeY self + 1)))))
              (Z.to_nat (2 * sizeX self + 1))
              (np.full (2 * sizeX self + 1) (2 * sizeY self + 1) (-2)))
    as (grid & Hfold & [Hshape Hvals]).
  - split; [apply full_shape; lia |]. intros p Hp.
    rewrite (cost_full self (-2) p Hp). destruct Hp as [Hp1 _].
    by rewrite decide_False by lia.
  - intros i g Hi [Hg Hgv].
    destruct (foldM_seqZ_inv (Q i) (init_cell self i)
                (Z.to_nat (2 * sizeY self + 1)) g) as (g' & Hrow & [Hg' Hgv']).
    + split; [done |]. intros p Hp. rewrite (Hgv p Hp). destruct Hp as [_ Hp2].
      destruct (decide (p.1 < i)).
      * by rewrite decide_True by lia.
      * by rewrite decide_False by lia.
    + intros j g1 Hj [Hg1 Hg1v].
      assert (Hij : in_grid self (i, j).1 (i, j).2) by (unfold in_grid; cbn; lia).
      unfold init_cell. rewrite Hc. cbn [np.getitem_opt].
      rewrite (getitem_cost self c i j Hs Hij), bind_Ok.
      case_decide as Hzero.
      * destruct (setitem_inrange _ _ _ Hg1 i j (-1)) as [g2 Hset]; [lia | lia |].
        exists g2. split; [done |].
        split; [exact (setitem_shape _ _ _ Hg1 _ _ _ _ Hset) |].
        intros p Hp. rewrite (cost_setitem self g1 g2 (i, j) (-1) Hg1 Hij Hset p Hp).
        rewrite (Hg1v p Hp). destruct (decide (p = (i, j))) as [-> | Hne].
        -- rewrite decide_True by (cbn; lia). unfold init_value.
           by rewrite decide_True.
        -- assert (Hne' : ~ (p.1 = i /\ p.2 = j)).
           { intros [H1 H2]. apply Hne. destruct p. cbn in *. congruence. }
           destruct (decide (p.1 < i \/ p.1 = i /\ p.2 < j)).
           ++ by rewrite decide_True by lia.
           ++ by rewrite decide_False by lia.
      * exists g1. split; [done |]. split; [done |]. intros p Hp.
        rewrite (Hg1v p Hp). destruct (decide (p = (i, j))) as [-> | Hne].
        -- rewrite decide_False by (cbn; lia). rewrite decide_True by (cbn; lia).
           unfold init_value. by rewrite decide_False.
        -- assert (Hne' : ~ (p.1 = i /\ p.2 = j)).
           { intros [H1 H2]. apply Hne. destruct p. cbn in *. congruence. }
           destruct (decide (p.1 < i \/ p.1 = i /\ p.2 < j)).
           ++ by rewrite decide_True by lia.
           ++ by rewrite decide_False by lia.
    + exists g'. split; [done |]. split; [done |]. intros p Hp.
      rewrite (Hgv' p Hp). destruct Hp as [_ Hp2].
      destruct (decide (p.1 < i + 1)).
      * by rewrite decide_True by lia.
      * by rewrite decide_False by lia.
  - exists grid. split; [done |]. split; [done |]. intros p Hp.
    rewrite (Hvals p Hp). destruct Hp as [Hp1 _]. by rewrite decide_True by lia.
Qed.

(** *** fillCostMatrix as a whole *)

Lemma fill_start (self : Map2D) (c : np.ndarray) (goal : Z * Z) :
  0 <= sizeX self -> 0 <= sizeY self ->
  connectionMatrix self = Some c -> grid_shape self c ->
  in_grid self goal.1 goal.2 ->
  exists grid0,
    (grid ← init_grid self (2 * sizeX self + 1) (2 * sizeY self + 1);
     np.setitem grid goal.1 goal.2 0) = Ok grid0 /\
    round_start self goal (closed_of self goal) 0 [goal] grid0.
Proof.
  intros Hsx Hsy Hc Hs Hgoal.
  destruct (init_grid_values self c Hsx Hsy Hc Hs) as (g & Hinit & Hg & Hgv).
  destruct (setitem_inrange _ _ _ Hg goal.1 goal.2 0) as [grid0 Hset];
    [apply Hgoal | apply Hgoal |].
  exists grid0. rewrite Hinit, bind_Ok. split; [done |].
  pose proof (setitem_shape _ _ _ Hg _ _ _ _ Hset) as Hs0.
  assert (Hcost : forall q, in_grid self q.1 q.2 ->
            cost grid0 q = if decide (q = goal) then 0 else init_value c q).
  { intros q Hq. rewrite (cost_setitem self g grid0 goal 0 Hg Hgoal Hset q Hq).
    case_decide; [done | by apply Hgv]. }
  assert (Hother : forall q, in_grid self q.1 q.2 -> q <> goal ->
            cost grid0 q = -1 \/ cost grid0 q = -2).
  { intros q Hq Hne. rewrite (Hcost q Hq), decide_False by done.
    unfold init_value. case_decide; [by left | by right]. }
  assert (Hzero : forall q, in_grid self q.1 q.2 -> 0 <= cost grid0 q -> q = goal).
  { intros q Hq Hge. destruct (decide (q = goal)) as [| Hne]; [done |].
    destruct (Hother q Hq Hne); lia. }
  assert (Hgoal0 : cost grid0 goal = 0).
  { rewrite (Hcost goal Hgoal). by rewrite decide_True. }
  split; [split | |].
  - exact Hs0.
  - lia.
  - done.
  - intros q Hq. destruct (decide (q = goal)) as [-> | Hne].
    + right. right. lia.
    + destruct (Hother q Hq Hne); tauto.
  - intros q Hq. unfold closed_of. rewrite Hc. cbn [np.getitem_opt].
    rewrite (getitem_cost self c _ _ Hs Hq), <- surjective_pairing.
    rewrite (Hcost q Hq). case_decide as E.
    + split; [lia |]. intros [_ Hne]. done.
    + unfold init_value. case_decide as Ez.
      * split; [intros _; split; [by rewrite Ez | done] | done].
      * split; [lia |]. intros [[= Hz] _]. done.
  - intros q Hq Hz. apply Hzero; [done | lia].
  - intros q Hq Hge. assert (q = goal) as -> by (apply Hzero; [done | lia]). lia.
  - intros q q' Hq Hlt. lia.
  - intros w Hw. apply list_elem_of_singleton in Hw as ->. done.
  - intros q Hq H1. assert (q = goal) as -> by (apply Hzero; [done | lia]). lia.
  - intros q Hq. destruct (decide (q = goal)) as [-> | Hne]; [lia |].
    destruct (Hother q Hq Hne); lia.
  - intros q Hq H0. apply list_elem_of_singleton. apply Hzero; [done | lia].
Qed.

Lemma fillCostMatrix_locals_ends (self : Map2D) (gx gy : Z) (rounds : nat) :
  loaded self -> 0 <= gx < sizeX self -> 0 <= gy < sizeY self ->
  (2 * sizeX self + 1) * (2 * sizeY self + 1) < Z.of_nat rounds ->
  exists grid,
    fillCostMatrix_locals rounds self (gx, gy)
    = Some (Ok (set_sizeExtended self (2 * sizeX self + 1) (2 * sizeY self + 1),
                grid, [])) /\
    field_ok self (2 * gx + 1, 2 * gy + 1)
             (closed_of self (2 * gx + 1, 2 * gy + 1)) grid /\
    forall p, in_grid self p.1 p.2 ->
              cost grid p <= (2 * sizeX self + 1) * (2 * sizeY self + 1).
Proof.
  intros (Hsx & Hsy & c & Hc & Hs) Hgx Hgy Hrounds.
  set (self' := set_sizeExtended self (2 * sizeX self + 1) (2 * sizeY self + 1)).
  set (goal := (2 * gx + 1, 2 * gy + 1)).
  assert (Hgoal : in_grid self' goal.1 goal.2) by (unfold in_grid; cbn; lia).
  destruct (fill_start self' c goal Hsx Hsy Hc Hs Hgoal) as (grid0 & Hinit & Hstart).
  pose proof (count_eq_bounds _ _ (-2) grid0
                (wi_shape _ _ _ _ _ _ (rs_inv _ _ _ _ _ _ Hstart))) as Hcb.
  destruct (wavefront_loop_ends self' goal (closed_of self' goal)
              ((2 * sizeX self + 1) * (2 * sizeY self + 1)) rounds 0 [goal] grid0 Hstart)
    as (grid & Hloop & Hok & Hle).
  { change (sizeX self') with (sizeX self) in Hcb.
    change (sizeY self') with (sizeY self) in Hcb. lia. }
  { change (sizeX self') with (sizeX self) in Hcb.
    change (sizeY self') with (sizeY self) in Hcb. lia. }
  exists grid. split; [| split; [| exact Hle]].
  2: { destruct Hok as [H1 H2 H3 H4 H5 H6 H7].
       split; [exact H1 | exact H2 | exact H3 | exact H4 | exact H5 | exact H6
              | exact H7]. }
  unfold fillCostMatrix_locals. cbn [fst snd].
  change (init_grid _ _ _ ≫= _) with
    (grid ← init_grid self' (2 * sizeX self' + 1) (2 * sizeY self' + 1);
     np.setitem grid goal.1 goal.2 0).
  rewrite Hinit.
  change (wavefront_loop rounds _ grid0 _) with (wavefront_loop rounds self' grid0 [goal]).
  by rewrite Hloop.
Qed.

(** X17: [fillCostMatrix] always ends.  On a loaded map and for a goal
    cell of the map, the loop ends without exception within
    (2 sizeX + 1)(2 sizeY + 1) + 1 rounds, whatever the connections are;
    the wavefront it prints at the end is empty, and the object is left
    as it was but for [sizeXExtended] and [sizeYExtended]. *)
Theorem fillCostMatrix_ends (self : Map2D) (gx gy : Z) (rounds : nat) :
  loaded self -> 0 <= gx < sizeX self -> 0 <= gy < sizeY self ->
  (2 * sizeX self + 1) * (2 * sizeY self + 1) < Z.of_nat rounds ->
  fillCostMatrix rounds self (gx, gy)
  = Some (Ok (set_sizeExtended self (2 * sizeX self + 1) (2 * sizeY self + 1), [])).
Proof.
  intros Hl Hgx Hgy Hrounds.
  destruct (fillCostMatrix_locals_ends self gx gy rounds Hl Hgx Hgy Hrounds)
    as (grid & Hres & _).
  unfold fillCostMatrix. by rewrite Hres.
Qed.

Lemma fillCostMatrix_ends_witness :
  loaded map0 /\ 0 <= 2 < sizeX map0 /\ 0 <= 0 < sizeY map0 /\
  (2 * sizeX map0 + 1) * (2 * sizeY map0 + 1) < Z.of_nat 50 /\
  fillCostMatrix 50 map0 (2, 0)
  = Some (Ok (set_sizeExtended map0 (2 * sizeX map0 + 1) (2 * sizeY map0 + 1), [])).
Proof.
  split; [exact map0_loaded |]. split; [cbn; lia |]. split; [cbn; lia |].
  split; [cbn; lia |].
  apply (fillCostMatrix_ends map0 2 0 50);
    [exact map0_loaded | cbn; lia | cbn; lia | cbn; lia].
Defined.

(** Whatever number of rounds was allowed, a grid that the loop ended
    with is the grid of [fillCostMatrix_locals_ends]. *)
Lemma fillCostMatrix_locals_result (self self' : Map2D) (gx gy : Z) (rounds : nat)
      (grid : np.ndarray) (w : list (Z * Z)) :
  loaded self -> 0 <= gx < sizeX self -> 0 <= gy < sizeY self ->
  fillCostMatrix_locals rounds self (gx, gy) = Some (Ok (self', grid, w)) ->
  w = [] /\
  field_ok self (2 * gx + 1, 2 * gy + 1)
           (closed_of self (2 * gx + 1, 2 * gy + 1)) grid /\
  forall p, in_grid self p.1 p.2 ->
            cost grid p <= (2 * sizeX self + 1) * (2 * sizeY self + 1).
Proof.
  intros Hl Hgx Hgy Hres.
  set (K := S (Z.to_nat ((2 * sizeX self + 1) * (2 * sizeY self + 1)))).
  apply (fillCostMatrix_locals_more _ _ _ K) in Hres.
  destruct (fillCostMatrix_locals_ends self gx gy (rounds + K) Hl Hgx Hgy)
    as (grid' & Hres' & Hok & Hle); [lia |].
  rewrite Hres' in Hres. injection Hres as _ <- <-. done.
Qed.

(** X18: what the grid holds when the loop has ended.  On a loaded map
    and for a goal cell of the map, every position of the grid can be
    read and holds -1, -2 or a number from 0 to (2 sizeX + 1)(2 sizeY + 1).
    It holds 0 exactly at the centre of the goal cell, and -1 exactly
    where the connection matrix holds 0, the centre of the goal cell
    apart; the last wavefront is empty. *)
Theorem fillCostMatrix_grid_values (self self' : Map2D) (gx gy : Z) (rounds : nat)
        (grid : np.ndarray) (w : list (Z * Z)) :
  loaded self -> 0 <= gx < sizeX self -> 0 <= gy < sizeY self ->
  fillCostMatrix_locals rounds self (gx, gy) = Some (Ok (self', grid, w)) ->
  w = [] /\
  grid_shape self grid /\
  forall x y, in_grid self x y ->
    exists v, np.getitem grid x y = Ok v /\
      (v = -1 \/ v = -2 \/ 0 <= v <= (2 * sizeX self + 1) * (2 * sizeY self + 1)) /\
      (v = 0 <-> (x, y) = (2 * gx + 1, 2 * gy + 1)) /\
      (v = -1 <-> np.getitem_opt (connectionMatrix self) x y = Ok 0 /\
                  (x, y) <> (2 * gx + 1, 2 * gy + 1)).
Proof.
  intros Hl Hgx Hgy Hres.
  destruct (fillCostMatrix_locals_result self self' gx gy rounds grid w Hl Hgx Hgy Hres)
    as (Hw & [Hs [Hgin Hg0] Hzero Hclosed Hvals Hdesc Hclos] & Hle).
  split; [done |]. split; [done |]. intros x y Hin.
  exists (cost grid (x, y)). split; [by apply (getitem_cost self) |].
  split; [| split].
  - pose proof (Hle (x, y) Hin). destruct (Hvals (x, y) Hin) as [H1 | [H2 | H3]]; lia.
  - split; [by apply Hzero | by intros ->].
  - exact (Hclosed (x, y) Hin).
Qed.

Lemma fillCostMatrix_grid_values_witness :
  loaded map0 /\ 0 <= 1 < sizeX map0 /\ 0 <= 1 < sizeY map0 /\
  fillCostMatrix_locals 3 map0 (1, 1)
  = Some (Ok (set_sizeExtended map0 7 7, field0, [])) /\
  grid_shape map0 field0 /\
  forall x y, in_grid map0 x y ->
    exists v, np.getitem field0 x y = Ok v /\
      (v = -1 \/ v = -2 \/ 0 <= v <= (2 * sizeX map0 + 1) * (2 * sizeY map0 + 1)) /\
      (v = 0 <-> (x, y) = (2 * 1 + 1, 2 * 1 + 1)) /\
      (v = -1 <-> np.getitem_opt (connectionMatrix map0) x y = Ok 0 /\
                  (x, y) <> (2 * 1 + 1, 2 * 1 + 1)).
Proof.
  split; [exact map0_loaded |]. split; [cbn; lia |]. split; [cbn; lia |].
  split; [exact fillCostMatrix_map0 |].
  apply (fillCostMatrix_grid_values map0 (set_sizeExtended map0 7 7) 1 1 3 field0 []);
    [exact map0_loaded | cbn; lia | cbn; lia | exact fillCostMatrix_map0].
Defined.

Lemma descent_exists (self : Map2D) (goal : Z * Z) (closed : Z * Z -> Prop)
      (grid : np.ndarray) :
  field_ok self goal closed grid ->
  forall (k : nat) (p : Z * Z),
  in_grid self p.1 p.2 -> cost grid p = Z.of_nat k ->
  exists path, length path = k /\ descent self grid goal p path.
Proof.
  intros [Hs [Hgin Hg0] Hzero Hclosed Hvals Hdesc Hclos].
  induction k as [| k IH]; intros p Hp Hk.
  - exists []. split; [done |]. cbn. by apply Hzero.
  - destruct (Hdesc p Hp) as (q & Hadj & Hq); [lia |].
    pose proof Hadj as [_ Hqin].
    destruct (IH q Hqin) as (rest & Hlen & Hrest); [lia |].
    exists (q :: rest). split; [cbn; lia |]. cbn. split; [done |]. split; [| done].
    exists (cost grid q). split; [by apply (getitem_cost self) |].
    rewrite (getitem_cost self grid _ _ Hs Hp), <- surjective_pairing. f_equal. lia.
Qed.

Lemma walk_bounds_cost (self : Map2D) (goal : Z * Z) (closed : Z * Z -> Prop)
      (grid : np.ndarray) :
  field_ok self goal closed grid ->
  forall (path : list (Z * Z)) (p : Z * Z),
  in_grid self p.1 p.2 -> walk self grid goal p path ->
  0 <= cost grid p <= Z.of_nat (length path).
Proof.
  intros [Hs [Hgin Hg0] Hzero Hclosed Hvals Hdesc Hclos].
  induction path as [| q rest IH]; intros p Hp; cbn [walk length].
  - intros ->. lia.
  - intros (Hadj & Hnb & Hrest). pose proof Hadj as [_ Hqin].
    pose proof (IH q Hqin Hrest) as Hq.
    destruct (Hclos q p Hqin) as [Hne Hle]; [lia | by apply adjacent_sym |].
    rewrite (getitem_cost self grid _ _ Hs Hp), <- surjective_pairing in Hnb.
    destruct (Hvals p Hp) as [H1 | [H2 | H3]]; [| lia | lia].
    exfalso. apply Hnb. by rewrite H1.
Qed.

(** X19: a value is a number of steps to the goal.  In the grid that the
    loop ended with, from every position that holds a number k >= 0
    there is a descent of exactly k steps to the centre of the goal cell:
    each step goes to one of the 8 neighbours, inside the grid, that
    holds one less. *)
Theorem fillCostMatrix_descent (self self' : Map2D) (gx gy : Z) (rounds : nat)
        (grid : np.ndarray) (w : list (Z * Z)) (x y k : Z) :
  loaded self -> 0 <= gx < sizeX self -> 0 <= gy < sizeY self ->
  fillCostMatrix_locals rounds self (gx, gy) = Some (Ok (self', grid, w)) ->
  in_grid self x y -> np.getitem grid x y = Ok k -> 0 <= k ->
  exists path,
    Z.of_nat (length path) = k /\
    descent self grid (2 * gx + 1, 2 * gy + 1) (x, y) path.
Proof.
  intros Hl Hgx Hgy Hres Hin Hk Hge.
  destruct (fillCostMatrix_locals_result self self' gx gy rounds grid w Hl Hgx Hgy Hres)
    as (_ & Hok & _).
  rewrite (getitem_cost self grid x y (fo_shape _ _ _ _ Hok) Hin) in Hk.
  injection Hk as Hk.
  destruct (descent_exists self _ _ grid Hok (Z.to_nat k) (x, y) Hin) as (path & Hlen & Hpath);
    [lia |].
  exists path. split; [lia | done].
Qed.

Lemma fillCostMatrix_descent_witness :
  loaded map0 /\ 0 <= 1 < sizeX map0 /\ 0 <= 1 < sizeY map0 /\
  fillCostMatrix_locals 3 map0 (1, 1)
  = Some (Ok (set_sizeExtended map0 7 7, field0, [])) /\
  in_grid map0 1 5 /\ np.getitem field0 1 5 = Ok 2 /\ 0 <= 2 /\
  exists path,
    Z.of_nat (length path) = 2 /\
    descent map0 field0 (2 * 1 + 1, 2 * 1 + 1) (1, 5) path.
Proof.
  split; [exact map0_loaded |]. split; [cbn; lia |]. split; [cbn; lia |].
  split; [exact fillCostMatrix_map0 |].
  split; [unfold in_grid; cbn; lia |]. split; [reflexivity |]. split; [lia |].
  apply (fillCostMatrix_descent map0 (set_sizeExtended map0 7 7) 1 1 3 field0 [] 1 5 2);
    [exact map0_loaded | cbn; lia | cbn; lia | exact fillCostMatrix_map0
    | unfold in_grid; cbn; lia | reflexivity | lia].
Defined.

(** X20: and no walk is shorter.  In the grid that the loop ended with,
    if a walk of n steps leads from a position to the centre of the goal
    cell, each step to one of the 8 neighbours inside the grid and no
    position on the way blocked (-1), then the position holds a number
    between 0 and n.  So a position that holds -2 has no such walk, and
    the number a position holds is the length of a shortest one. *)
Theorem fillCostMatrix_shortest (self self' : Map2D) (gx gy : Z) (rounds : nat)
        (grid : np.ndarray) (w : list (Z * Z)) (x y : Z) (path : list (Z * Z)) :
  loaded self -> 0 <= gx < sizeX self -> 0 <= gy < sizeY self ->
  fillCostMatrix_locals rounds self (gx, gy) = Some (Ok (self', grid, w)) ->
  in_grid self x y ->
  walk self grid (2 * gx + 1, 2 * gy + 1) (x, y) path ->
  exists k, np.getitem grid x y = Ok k /\ 0 <= k <= Z.of_nat (length path).
Proof.
  intros Hl Hgx Hgy Hres Hin Hwalk.
  destruct (fillCostMatrix_locals_result self self' gx gy rounds grid w Hl Hgx Hgy Hres)
    as (_ & Hok & _).
  exists (cost grid (x, y)).
  split; [exact (getitem_cost self grid x y (fo_shape _ _ _ _ Hok) Hin) |].
  exact (walk_bounds_cost self _ _ grid Hok path (x, y) Hin Hwalk).
Qed.

Lemma fillCostMatrix_shortest_witness :
  loaded map0 /\ 0 <= 1 < sizeX map0 /\ 0 <= 1 < sizeY map0 /\
  fillCostMatrix_locals 3 map0 (1, 1)
  = Some (Ok (set_sizeExtended map0 7 7, field0, [])) /\
  in_grid map0 1 1 /\
  walk map0 field0 (2 * 1 + 1, 2 * 1 + 1) (1, 1) [(1, 2); (2, 3); (3, 3)] /\
  exists k, np.getitem field0 1 1 = Ok k /\
            0 <= k <= Z.of_nat (length [(1, 2); (2, 3); (3, 3)]).
Proof.
  assert (Hin : in_grid map0 1 1) by (unfold in_grid; cbn; lia).
  assert (Hwalk : walk map0 field0 (2 * 1 + 1, 2 * 1 + 1) (1, 1)
                    [(1, 2); (2, 3); (3, 3)]).
  { cbn [walk]. split_and!; try reflexivity; try (cbn; discriminate).
    - split; [exists 2%nat; split; [lia | reflexivity] | unfold in_grid; cbn; lia].
    - split; [exists 1%nat; split; [lia | reflexivity] | unfold in_grid; cbn; lia].
    - split; [exists 0%nat; split; [lia | reflexivity] | unfold in_grid; cbn; lia]. }
  split; [exact map0_loaded |]. split; [cbn; lia |]. split; [cbn; lia |].
  split; [exact fillCostMatrix_map0 |]. split; [exact Hin |]. split; [exact Hwalk |].
  apply (fillCostMatrix_shortest map0 (set_sizeExtended map0 7 7) 1 1 3 field0 []
           1 1 [(1, 2); (2, 3); (3, 3)]);
    [exact map0_loaded | cbn; lia | cbn; lia | exact fillCostMatrix_map0
    | exact Hin | exact Hwalk].
Defined.

(** ** A map that was never loaded *)




(** ** The entries that one call of findPath records *)

Lemma flat_cons (p : Z * Z) (l : list (Z * Z)) : flat (p :: l) = p.1 :: p.2 :: flat l.
Proof. reflexivity. Qed.

Lemma pairs_flat (l : list (Z * Z)) : pairs (flat l) = l.
Proof.
  induction l as [| [a b] l IH]; [done |].
  rewrite flat_cons. cbn [pairs fst snd]. by rewrite IH.
Qed.

Lemma findPath_records (cm : np.ndarray) (depth : nat) :
  forall (self : Map2D) (xi yi xe ye : Z),
  costMatrix self = Some cm ->
  exists l,
    path_entries (findPath depth self xi yi xe ye).2 = path_entries self ++ flat l /\
    redoubled cm l /\
    (forall p, head l = Some p -> p = (2 * xi + 1, 2 * yi + 1)) /\
    (depth <> 0%nat -> l <> []).
Proof.
  induction depth as [| depth IH]; intros self xi yi xe ye Hcm.
  - exists []. cbn. by rewrite app_nil_r.
  - cbn [findPath].
    set (self1 := append_path self (2 * xi + 1) (2 * yi + 1)).
    assert (Hcm1 : costMatrix self1 = Some cm)
      by (unfold self1; by rewrite append_path_costMatrix).
    assert (Hone : exists l,
      path_entries self1 = path_entries self ++ flat l /\
      redoubled cm l /\
      (forall p, head l = Some p -> p = (2 * xi + 1, 2 * yi + 1)) /\
      (S depth <> 0%nat -> l <> [])).
    { exists [(2 * xi + 1, 2 * yi + 1)]. unfold self1.
      rewrite append_path_entries. split; [done |]. split; [done |].
      split; [by intros p [= <-] | done]. }
    rewrite Hcm1. cbn [np.getitem_opt].
    destruct (np.getitem cm _ _) as [c | e]; [| done].
    case_decide; [done |]. case_decide; [done |].
    destruct (best_step _ _ _) as [[[step |] low] | e] eqn:Hbest; try done.
    destruct (IH self1 step.1 step.2 (2 * xe + 1) (2 * ye + 1) Hcm1)
      as (l & Hp & Hred & Hhead & _).
    exists ((2 * xi + 1, 2 * yi + 1) :: l). split; [| split; [| split]].
    + rewrite Hp. unfold self1. rewrite append_path_entries, <- app_assoc.
      by rewrite flat_cons.
    + destruct l as [| q l']; [done |]. cbn [redoubled]. split; [| done].
      exists step. split; [| by apply Hhead].
      apply best_step_inv in Hbest as (_ & _ & _ & Hsome).
      by destruct (Hsome step eq_refl).
    + by intros p [= <-].
    + done.
Qed.

(** X22: how the entries of one call follow each other.  On an object
    whose [currentPath] is still [None], the pairs that one call of
    [findPath] leaves there start with the centre of the start cell, and
    each later pair is (2 sx + 1, 2 sy + 1) for a position (sx, sy) that
    the walk may step to from the pair before: the step is taken in the
    grid, and then read again as a cell. *)
Theorem findPath_entries_redoubled (depth : nat) (self : Map2D) (xi yi xe ye : Z)
        (cm : np.ndarray) :
  costMatrix self = Some cm -> currentPath self = None ->
  redoubled cm (path_of (findPath (S depth) self xi yi xe ye).2) /\
  head (path_of (findPath (S depth) self xi yi xe ye).2)
  = Some (2 * xi + 1, 2 * yi + 1).
Proof.
  intros Hcm Hnone.
  destruct (findPath_records cm (S depth) self xi yi xe ye Hcm)
    as (l & Hp & Hred & Hhead & Hne).
  assert (Hpath : path_of (findPath (S depth) self xi yi xe ye).2 = l).
  { unfold path_of. rewrite Hp. unfold path_entries. rewrite Hnone. cbn [default app].
    apply pairs_flat. }
  rewrite Hpath. split; [done |].
  destruct l as [| p l']; [by destruct Hne |]. cbn. f_equal. by apply Hhead.
Qed.

Lemma findPath_entries_redoubled_witness :
  let self := set_costMatrix map0 (Some field0) in
  costMatrix self = Some field0 /\ currentPath self = None /\
  path_of (findPath 1000 self 0 0 1 1).2 = [(1, 1); (3, 1); (7, 1)] /\
  redoubled field0 (path_of (findPath 1000 self 0 0 1 1).2) /\
  head (path_of (findPath 1000 self 0 0 1 1).2) = Some (2 * 0 + 1, 2 * 0 + 1).
Proof.
  cbv zeta. split; [reflexivity |]. split; [reflexivity |].
  split; [vm_compute; reflexivity |].
  apply (findPath_entries_redoubled 999 (set_costMatrix map0 (Some field0)) 0 0 1 1 field0);
    reflexivity.
Defined.
